(** * Dice_Game: the commit-reveal exchange and the dice comparison

    A shallow embedding of [dice_game.js]: the start-up validation of the
    dice given on the command line, the rejection sampler
    [secureRandomInt], the commit-reveal exchange [fairRandom], the
    re-roll loop of [main] and the comparison of two dice.

    JavaScript numbers are modelled by [number]: the program only ever
    handles integers and [NaN] (the result of a failed [parseInt] or of
    [x % 0]).  Console output is a list of structured [event]s, each of
    which [render]s to the line the program prints.  The operating
    system's random generator and the terminal are a [World]: the bytes
    [crypto.randomBytes] will deliver, the lines the user will type and
    the output so far. *)

From Stdlib Require Import ZArith List String Ascii Bool Lia.
From Stdlib.Strings Require Import Byte.
From Stdlib Require Import DecimalString DecimalPos.
From Stdlib Require Finite.
From Stdlib Require Import Uint63 Floats.
Import ListNotations.
Local Open Scope Z_scope.

(** ** JavaScript values and primitives *)

Module JS.

(** A JavaScript number, as far as this program can produce one: an
    integer or [NaN].  The model is exact for integers up to
    [Number.MAX_SAFE_INTEGER] = 2^53 - 1 in size, which binary64
    represents one by one; beyond it JavaScript rounds, and from about
    1.8e308 gives [Infinity], where the model keeps the integer.  The
    model has one zero: [-0], which the script prints and compares as
    [0], is not told apart. *)
Inductive number : Type :=
| NaN
| Num (z : Z).

Definition isNaN (x : number) : bool :=
  match x with NaN => true | Num _ => false end.

(** [a + b] and [a - b]. *)
Definition add (a b : number) : number :=
  match a, b with Num x, Num y => Num (x + y) | _, _ => NaN end.

Definition sub (a b : number) : number :=
  match a, b with Num x, Num y => Num (x - y) | _, _ => NaN end.

(** [a % b]: the remainder takes the sign of the dividend, and a zero
    divisor gives [NaN]. *)
Definition rem (a b : number) : number :=
  match a, b with
  | Num x, Num y => if y =? 0 then NaN else Num (Z.rem x y)
  | _, _ => NaN
  end.

(** Comparisons: any comparison with [NaN] is false. *)
Definition lt (a b : number) : bool :=
  match a, b with Num x, Num y => x <? y | _, _ => false end.

Definition ge (a b : number) : bool :=
  match a, b with Num x, Num y => y <=? x | _, _ => false end.

(** [a === b] on numbers. *)
Definition strictEq (a b : number) : bool :=
  match a, b with Num x, Num y => x =? y | _, _ => false end.

(** [x.toString()], which is also what a template literal and [join]
    print, for an integer below 1e21 in size: every digit, with a minus
    sign before a negative number.  From 1e21 JavaScript prints an
    exponent ([1e+21]) where this definition goes on printing digits;
    the properties about printed faces are stated for faces up to
    [Number.MAX_SAFE_INTEGER] in size. *)
Definition toString (x : number) : string :=
  match x with
  | NaN => "NaN"%string
  | Num z => NilZero.string_of_int (Z.to_int z)
  end.

(** White space removed by [trim] and skipped by [parseInt], within
    ASCII: tab, line feed, vertical tab, form feed, carriage return and
    space.  JavaScript also removes the white space outside ASCII (the
    no-break space, the byte order mark, the Unicode space separators,
    the line and paragraph separators); strings here are read as ASCII
    text. *)
Definition isWhiteSpace (c : ascii) : bool :=
  let n := nat_of_ascii c in
  (Nat.eqb n 9 || Nat.eqb n 10 || Nat.eqb n 11 || Nat.eqb n 12
   || Nat.eqb n 13 || Nat.eqb n 32)%bool.

Fixpoint trimStart (s : list ascii) : list ascii :=
  match s with
  | c :: r => if isWhiteSpace c then trimStart r else s
  | [] => []
  end.

Definition trimEnd (s : list ascii) : list ascii :=
  rev (trimStart (rev s)).

(** [s.trim()]. *)
Definition trim (s : string) : string :=
  string_of_list_ascii (trimEnd (trimStart (list_ascii_of_string s))).

(** The value of a decimal digit. *)
Definition digitValue (c : ascii) : option Z :=
  let n := Z.of_nat (nat_of_ascii c) in
  if (48 <=? n) && (n <=? 57) then Some (n - 48) else None.

(** The longest prefix of decimal digits, read as a number. *)
Fixpoint parseDigits (acc : Z) (s : list ascii) : Z :=
  match s with
  | c :: r =>
      match digitValue c with
      | Some d => parseDigits (acc * 10 + d) r
      | None => acc
      end
  | [] => acc
  end.

Definition startsWithDigit (s : list ascii) : bool :=
  match s with
  | c :: _ => match digitValue c with Some _ => true | None => false end
  | [] => false
  end.

(** [parseInt(s, 10)]: leading white space is skipped, a sign is read,
    then the longest run of digits; whatever follows is ignored.  With
    no digit at that place the result is [NaN].  The result is
    JavaScript's whenever it is at most [Number.MAX_SAFE_INTEGER] in
    size.  Beyond that JavaScript rounds to the nearest double, and
    gives [Infinity] for some 310 digits, where the model keeps the
    integer: this changes neither [isNaN] nor a comparison with a bound
    below 2^53, but it does change the value, so the properties about
    the faces read from the command line are stated for results up to
    [Number.MAX_SAFE_INTEGER] in size. *)
Definition parseInt (s : string) : number :=
  let cs := trimStart (list_ascii_of_string s) in
  let '(sign, body) :=
    match cs with
    | "-"%char :: r => (-1, r)
    | "+"%char :: r => (1, r)
    | _ => (1, cs)
    end in
  if startsWithDigit body then Num (sign * parseDigits 0 body) else NaN.

(** [s.split(sep)] for a one-character separator. *)
Fixpoint split (sep : ascii) (s : string) : list string :=
  match s with
  | EmptyString => [EmptyString]
  | String c r =>
      if Ascii.eqb c sep then EmptyString :: split sep r
      else match split sep r with
           | h :: t => String c h :: t
           | [] => [String c EmptyString]
           end
  end.

(** [buf.readUInt32BE(0)] on a four-byte buffer. *)
Definition byteValue (b : byte) : Z := Z.of_N (Byte.to_N b).

Definition readUInt32BE (b0 b1 b2 b3 : byte) : Z :=
  Z.lor (Z.shiftl (byteValue b0) 24)
    (Z.lor (Z.shiftl (byteValue b1) 16)
       (Z.lor (Z.shiftl (byteValue b2) 8) (byteValue b3))).

(** [buf.toString('hex')]. *)
Definition hexDigit (n : Z) : ascii :=
  ascii_of_nat (Z.to_nat (if n <? 10 then 48 + n else 87 + n)).

Fixpoint hex (bs : list byte) : string :=
  match bs with
  | [] => EmptyString
  | b :: r =>
      String (hexDigit (Z.shiftr (byteValue b) 4))
        (String (hexDigit (Z.land (byteValue b) 15)) (hex r))
  end.

(** The bytes of an ASCII string, as [update(msg)] feeds them to the
    MAC. *)
Definition bytesOfString (s : string) : list byte := list_byte_of_string s.

End JS.

Import JS.

(** ** HMAC-SHA3-256

    Node's [crypto] module is not part of the script.  What
    [crypto.createHmac('sha3-256', key)] computes is fixed by FIPS 202
    (the Keccak permutation and the SHA3-256 sponge) and FIPS 198-1
    (HMAC); it is written out here on bytes as integers, and checked on
    known digests below. *)

Module SHA3.

(** A lane is a 64-bit word; the state is 25 lanes, lane (x, y) at
    position x + 5 y. *)
Definition mask64 : Z := 0xFFFFFFFFFFFFFFFF.

Definition rotl (x n : Z) : Z :=
  Z.lor (Z.land (Z.shiftl x n) mask64) (Z.shiftr x (64 - n)).

Definition lane (st : list Z) (x y : nat) : Z :=
  nth (x mod 5 + 5 * (y mod 5)) st 0.

Definition positions : list (nat * nat) :=
  flat_map (fun y => map (fun x => (x, y)) (seq 0 5)) (seq 0 5).

Definition theta (st : list Z) : list Z :=
  let c x := fold_left Z.lxor (map (lane st x) (seq 0 5)) 0 in
  let d x := Z.lxor (c (x + 4)%nat) (rotl (c (x + 1)%nat) 1) in
  map (fun '(x, y) => Z.lxor (lane st x y) (d x)) positions.

Definition rotations : list Z :=
  [ 0;  1; 62; 28; 27;
   36; 44;  6; 55; 20;
    3; 10; 43; 25; 39;
   41; 45; 15; 21;  8;
   18;  2; 61; 56; 14].

(** rho and pi together: the lane at (x, y) comes from (x + 3 y, x),
    rotated by the offset of its origin. *)
Definition rhoPi (st : list Z) : list Z :=
  map (fun '(x, y) =>
         let x0 := ((x + 3 * y) mod 5)%nat in
         let y0 := x in
         rotl (lane st x0 y0) (nth (x0 + 5 * y0) rotations 0))
      positions.

Definition chi (st : list Z) : list Z :=
  map (fun '(x, y) =>
         Z.lxor (lane st x y)
                (Z.ldiff (lane st (x + 2) y) (lane st (x + 1) y)))
      positions.

Definition roundConstants : list Z :=
  [0x0000000000000001; 0x0000000000008082; 0x800000000000808A;
   0x8000000080008000; 0x000000000000808B; 0x0000000080000001;
   0x8000000080008081; 0x8000000000008009; 0x000000000000008A;
   0x0000000000000088; 0x0000000080008009; 0x000000008000000A;
   0x000000008000808B; 0x800000000000008B; 0x8000000000008089;
   0x8000000000008003; 0x8000000000008002; 0x8000000000000080;
   0x000000000000800A; 0x800000008000000A; 0x8000000080008081;
   0x8000000000008080; 0x0000000080000001; 0x8000000080008008].

Definition iota (rc : Z) (st : list Z) : list Z :=
  match st with
  | a :: r => Z.lxor a rc :: r
  | [] => []
  end.

Definition round (st : list Z) (rc : Z) : list Z :=
  iota rc (chi (rhoPi (theta st))).

Definition keccakF (st : list Z) : list Z :=
  fold_left round roundConstants st.

(** Eight bytes, least significant first, as a lane, and back. *)
Fixpoint laneOfBytes (bs : list Z) : Z :=
  match bs with
  | [] => 0
  | b :: r => b + 256 * laneOfBytes r
  end.

Fixpoint bytesOfLane (n : nat) (l : Z) : list Z :=
  match n with
  | O => []
  | S n' => l mod 256 :: bytesOfLane n' (l / 256)
  end.

Fixpoint lanesOfBytes (n : nat) (bs : list Z) : list Z :=
  match n with
  | O => []
  | S n' => laneOfBytes (firstn 8 bs) :: lanesOfBytes n' (skipn 8 bs)
  end.

Definition rate : nat := 136.

(** The message followed by the SHA-3 suffix and the padding, up to a
    multiple of the rate. *)
Definition pad (msg : list Z) : list Z :=
  let q := (rate - Nat.modulo (List.length msg) rate)%nat in
  if Nat.eqb q 1 then msg ++ [0x86]
  else msg ++ [0x06] ++ repeat 0 (q - 2) ++ [0x80].

Definition xorState (st block : list Z) : list Z :=
  map (fun '(a, b) => Z.lxor a b) (List.combine st (block ++ repeat 0 25)).

Fixpoint absorb (n : nat) (st : list Z) (bs : list Z) : list Z :=
  match n with
  | O => st
  | S n' =>
      absorb n' (keccakF (xorState st (lanesOfBytes 17 (firstn rate bs))))
             (skipn rate bs)
  end.

Definition sha3_256 (msg : list Z) : list Z :=
  let padded := pad msg in
  let st := absorb (Nat.div (List.length padded) rate) (repeat 0 25) padded in
  firstn 32 (flat_map (bytesOfLane 8) st).

(** HMAC (FIPS 198-1) over SHA3-256, whose block is the rate. *)
Definition hmac (key msg : list Z) : list Z :=
  let k0 := if (rate <? List.length key)%nat then sha3_256 key else key in
  let k := k0 ++ repeat 0 (rate - List.length k0) in
  sha3_256 (map (Z.lxor 0x5c) k ++ sha3_256 (map (Z.lxor 0x36) k ++ msg)).

End SHA3.

Definition byteOfZ (z : Z) : byte :=
  match Byte.of_N (Z.to_N z) with Some b => b | None => x00 end.

(** [crypto.createHmac('sha3-256', key).update(msg).digest()]. *)
Definition hmac_sha3_256 (key msg : list byte) : list byte :=
  map byteOfZ (SHA3.hmac (map byteValue key) (map byteValue msg)).

(** ** Start-up: the dice given on the command line (lines 4-22) *)

Definition DICE_FACES : Z := 6.

(** What the top of the script does with [process.argv.slice(2)]: it
    either leaves through [process.exit(1)] after reporting an error, or
    goes on with the array [dice]. *)
Inductive startup : Type :=
| Exit (code : Z) (log : list string)
| Ready (dice : list (list Z)).

(** [arg.split(',').map(x => parseInt(x.trim(), 10))]. *)
Definition parseFaces (arg : string) : list number :=
  map (fun x => parseInt (trim x)) (split "," arg).

(** The integers of an array of numbers none of which is [NaN]. *)
Definition integers (faces : list number) : list Z :=
  flat_map (fun x => match x with Num z => [z] | NaN => [] end) faces.

(** The loop [for (const arg of args)] with the array [dice] built so
    far. *)
Fixpoint parseDice (args : list string) (dice : list (list Z)) : startup :=
  match args with
  | [] => Ready dice
  | arg :: rest =>
      let faces := parseFaces arg in
      if negb (Z.of_nat (List.length faces) =? DICE_FACES) || existsb isNaN faces
      then Exit 1 ["Error: Each dice must have exactly 6 integers, comma separated.";
                   "Example: 2,2,4,4,9,9"]%string
      else parseDice rest (dice ++ [integers faces])
  end.

Definition start (args : list string) : startup :=
  if Z.of_nat (List.length args) <? 3
  then Exit 1 ["Error: You must provide at least 3 dice.";
               "Example: node dice_game.js 2,2,4,4,9,9 6,8,1,1,8,6 7,5,3,7,5,3"]%string
  else parseDice args [].

(** A face token that is an integer literal: an optional sign and then
    decimal digits only, white space around it apart. *)
Definition isIntegerLiteral (token : string) : bool :=
  let cs := list_ascii_of_string (trim token) in
  let body :=
    match cs with
    | "-"%char :: r => r
    | "+"%char :: r => r
    | _ => cs
    end in
  negb (Nat.eqb (List.length body) 0)
  && forallb (fun c => match digitValue c with Some _ => true | None => false end) body.

(** ** The world: random bytes, the terminal, the console *)

(** What the program writes.  [render] gives the text of each. *)
Inductive event : Type :=
| Committed (label hmac : string)
| Question (max : Z)
| InvalidInput (max : Z)
| SecretNumber (compNum : number)
| SecretKey (key : list byte)
| YouEntered (userNum : number)
| Result (max : Z) (result : number)
| ComputerChose (compDieIndex : number)
| Line (text : string).

Definition newline : string := String (ascii_of_nat 10) EmptyString.

Definition render (e : event) : string :=
  match e with
  | Committed label hmac =>
      newline ++ "[" ++ label ++ "] Computer committed number HMAC: " ++ hmac
  | Question max =>
      "Enter your number (0-" ++ toString (Num (max - 1)) ++ "): "
  | InvalidInput max =>
      "Invalid input. Enter an integer between 0 and "
        ++ toString (Num (max - 1)) ++ "."
  | SecretNumber compNum => "Computer secret number: " ++ toString compNum
  | SecretKey key => "Computer secret key: " ++ hex key
  | YouEntered userNum => "You entered: " ++ toString userNum
  | Result max result =>
      "Result (computer + user) mod " ++ toString (Num max) ++ " = "
        ++ toString result ++ newline
  | ComputerChose c => "Computer chose die: " ++ toString c
  | Line text => text
  end%string.

(** [entropy]: the bytes the system generator will deliver, in order.
    [stdin]: the lines the user will type.  [stdout]: what was written.
    A finite [entropy] or [stdin] stands for a prefix of the run: a
    computation that needs more than is there gives [None], as does one
    that never returns. *)
Record World : Type := mkWorld {
  entropy : list byte;
  stdin : list string;
  stdout : list event
}.

Definition IO (A : Type) : Type := World -> option (A * World).

Definition ret {A : Type} (a : A) : IO A := fun w => Some (a, w).

Definition bind {A B : Type} (m : IO A) (k : A -> IO B) : IO B :=
  fun w => match m w with
           | Some (a, w') => k a w'
           | None => None
           end.

Notation "x <- m ;; k" := (bind m (fun x => k))
  (at level 61, m at next level, right associativity).
Notation "m ;;; k" := (bind m (fun _ => k))
  (at level 61, right associativity).

(** [crypto.randomBytes(n)]. *)
Definition randomBytes (n : nat) : IO (list byte) :=
  fun w =>
    if (List.length (entropy w) <? n)%nat then None
    else Some (firstn n (entropy w),
               mkWorld (skipn n (entropy w)) (stdin w) (stdout w)).

(** [console.log]. *)
Definition log (e : event) : IO unit :=
  fun w => Some (tt, mkWorld (entropy w) (stdin w) (stdout w ++ [e])).

(** [ask(question)]: the question is written, the next line is the
    answer. *)
Definition ask (question : event) : IO string :=
  fun w =>
    match stdin w with
    | [] => None
    | line :: rest =>
        Some (line, mkWorld (entropy w) rest (stdout w ++ [question]))
    end.

(** ** The rejection sampler [secureRandomInt] (lines 33-41) *)

(** The test of line 37 on a 32-bit draw [num]. *)
Definition accepts (max num : Z) : bool :=
  lt (Num num) (sub (Num 0xFFFFFFFF) (rem (Num 0xFFFFFFFF) (Num max))).

(** The loop on the bytes still to come: four bytes are read at each
    turn; an accepted draw is reduced modulo [max], a rejected one is
    dropped. *)
Fixpoint secureRandomIntFrom (max : Z) (bytes : list byte)
  : option (number * list byte) :=
  match bytes with
  | b0 :: b1 :: b2 :: b3 :: rest =>
      let num := readUInt32BE b0 b1 b2 b3 in
      if accepts max num then Some (rem (Num num) (Num max), rest)
      else secureRandomIntFrom max rest
  | _ => None
  end.

Definition secureRandomInt (max : Z) : IO number :=
  fun w =>
    match secureRandomIntFrom max (entropy w) with
    | Some (v, rest) => Some (v, mkWorld rest (stdin w) (stdout w))
    | None => None
    end.

(** ** The exchange [fairRandom] (lines 47-69) *)

(** The test of line 57. *)
Definition validUserNum (max : Z) (userNum : number) : bool :=
  negb (isNaN userNum) && ge userNum (Num 0) && lt userNum (Num max).

(** The loop of lines 54-59 on the lines still to come. *)
Fixpoint readUserNumFrom (max : Z) (lines : list string) (out : list event)
  : option (number * list string * list event) :=
  match lines with
  | [] => None
  | input :: rest =>
      let userNum := parseInt (trim input) in
      if validUserNum max userNum
      then Some (userNum, rest, out ++ [Question max])
      else readUserNumFrom max rest (out ++ [Question max; InvalidInput max])
  end.

Definition readUserNum (max : Z) : IO number :=
  fun w =>
    match readUserNumFrom max (stdin w) (stdout w) with
    | Some (userNum, rest, out) => Some (userNum, mkWorld (entropy w) rest out)
    | None => None
    end.

(** Line 61. *)
Definition combine (compNum userNum : number) (max : Z) : number :=
  rem (add compNum userNum) (Num max).

(** Lines 29-31: the digest in lower-case hexadecimal. *)
Definition hmacSha3 (key : list byte) (msg : string) : string :=
  hex (hmac_sha3_256 key (bytesOfString msg)).

Definition fairRandom (max : Z) (label : string) : IO number :=
  key <- randomBytes 32 ;;
  compNum <- secureRandomInt max ;;
  let hmac := hmacSha3 key (toString compNum) in
  log (Committed label hmac) ;;;
  userNum <- readUserNum max ;;
  let result := combine compNum userNum max in
  log (SecretNumber compNum) ;;;
  log (SecretKey key) ;;;
  log (YouEntered userNum) ;;;
  log (Result max result) ;;;
  ret result.

(** ** One round of [main] (lines 157-192) *)

(** The loop of lines 174-176; every turn runs one more exchange, which
    reads at least one line, so [fuel] never needs to exceed the number
    of lines left. *)
Fixpoint reroll (fuel : nat) (diceLength : Z) (userDieIndex compDieIndex : number)
  : IO number :=
  if strictEq compDieIndex userDieIndex then
    match fuel with
    | O => fun _ => None
    | S fuel' =>
        c <- fairRandom diceLength "Computer die choice (re-roll to avoid tie)" ;;
        reroll fuel' diceLength userDieIndex c
    end
  else ret compDieIndex.

(** Lines 173-176. *)
Definition chooseComputerDie (diceLength : Z) (userDieIndex : number) : IO number :=
  c <- fairRandom diceLength "Computer die choice" ;;
  fun w => reroll (List.length (stdin w)) diceLength userDieIndex c w.

(** [arr[i]]: [None] stands for [undefined]. *)
Definition index {A : Type} (arr : list A) (i : number) : option A :=
  match i with
  | Num z => if z <? 0 then None else nth_error arr (Z.to_nat z)
  | NaN => None
  end.

Definition faceToString (face : option Z) : string :=
  match face with
  | Some z => toString (Num z)
  | None => "undefined"%string
  end.

(** [d.join(', ')]. *)
Fixpoint join (d : list Z) : string :=
  match d with
  | [] => EmptyString
  | [x] => toString (Num x)
  | x :: r => (toString (Num x) ++ ", " ++ join r)%string
  end.

Fixpoint listing (i : Z) (dice : list (list Z)) : list event :=
  match dice with
  | [] => []
  | d :: r => Line (toString (Num i) ++ ": " ++ join d)%string :: listing (i + 1) r
  end.

Definition logAll (es : list event) : IO unit :=
  fun w => Some (tt, mkWorld (entropy w) (stdin w) (stdout w ++ es)).

(** The branch [choice.trim() === '2'] of the menu. *)
Definition play (dice : list (list Z)) : IO unit :=
  let n := Z.of_nat (List.length dice) in
  logAll (Line "Choose your die:" :: listing 0 dice
            ++ [Line (toString (Num n) ++ ": Exit")%string]) ;;;
  userDieInput <- ask (Line ("Select your die (0-" ++ toString (Num n) ++ "): ")%string) ;;
  let userDieIndex := parseInt (trim userDieInput) in
  if isNaN userDieIndex || lt userDieIndex (Num 0) || lt (Num n) userDieIndex
  then log (Line "Invalid die selection.")
  else if strictEq userDieIndex (Num n)
  then log (Line "Exiting to main menu.")
  else
    compDieIndex <- chooseComputerDie n userDieIndex ;;
    log (ComputerChose compDieIndex) ;;;
    userRoll <- fairRandom DICE_FACES "Your roll" ;;
    compRoll <- fairRandom DICE_FACES "Computer roll" ;;
    let userFace := match index dice userDieIndex with
                    | Some d => index d userRoll | None => None end in
    let compFace := match index dice compDieIndex with
                    | Some d => index d compRoll | None => None end in
    log (Line ("You rolled face: " ++ faceToString userFace)%string) ;;;
    log (Line ("Computer rolled face: " ++ faceToString compFace)%string) ;;;
    match userFace, compFace with
    | Some a, Some b =>
        if a >? b then log (Line "You win!")
        else if a <? b then log (Line "Computer wins!")
        else log (Line "It's a draw!")
    | _, _ => log (Line "It's a draw!")
    end.

(** ** Comparing two dice (lines 71-82 and 95-104) *)

(** The two counters [win] and [lose] after the nested loops. *)
Definition countFaces (d1 d2 : list Z) : Z * Z :=
  fold_left
    (fun st a =>
       fold_left
         (fun '(win, lose) b =>
            if a >? b then (win + 1, lose)
            else if a <? b then (win, lose + 1)
            else (win, lose))
         d2 st)
    d1 (0, 0).

Definition compareDice (d1 d2 : list Z) : Z :=
  let '(win, lose) := countFaces d1 d2 in
  if win >? lose then 1
  else if lose >? win then -1
  else 0.

(** The names the specification gives to the three results. *)
Inductive comparison3 : Type := WinsAgainst | LosesAgainst | Tie.

Definition CompareDice (d1 d2 : list Z) : comparison3 :=
  let r := compareDice d1 d2 in
  if r =? 1 then WinsAgainst else if r =? -1 then LosesAgainst else Tie.

(** [winCount] of [showProbabilities], lines 95-102. *)
Definition winCount (d1 d2 : list Z) : Z :=
  fold_left
    (fun count a =>
       fold_left (fun count b => if a >? b then count + 1 else count) d2 count)
    d1 0.

(** [(winCount / total) * 100] of line 104, in binary64 arithmetic as
    JavaScript computes it, before [toFixed(1)] turns it into text. *)
Definition percent (d1 d2 : list Z) : float :=
  let total := DICE_FACES * DICE_FACES in
  PrimFloat.mul
    (PrimFloat.div (PrimFloat.of_uint63 (Uint63.of_Z (winCount d1 d2)))
                   (PrimFloat.of_uint63 (Uint63.of_Z total)))
    (PrimFloat.of_uint63 (Uint63.of_Z 100)).

(** ** Counting, for the statements below *)

(** The integers [0 .. n-1]. *)
Definition range (n : nat) : list Z := map Z.of_nat (seq 0 n).

(** How many integers below [n] satisfy [p]. *)
Definition countBelow (p : Z -> bool) (n : nat) : nat :=
  List.length (filter p (range n)).

(** The secrets in [0, max) that the counterparty value [c] sends to the
    result [r]. *)
Definition secretsTo (max c r : Z) : list Z :=
  filter (fun s => strictEq (combine (Num s) (Num c) max) (Num r))
         (range (Z.to_nat max)).

(** The 32-bit draws below [n] that the sampler accepts and reduces to
    [r]. *)
Definition acceptedTo (max r : Z) (n : nat) : nat :=
  countBelow (fun num => accepts max num && strictEq (rem (Num num) (Num max)) (Num r)) n.

(** The number of faces of [d2] that [a] beats, and that beat [a]. *)
Fixpoint countGt (a : Z) (d2 : list Z) : Z :=
  match d2 with
  | [] => 0
  | b :: r => (if a >? b then 1 else 0) + countGt a r
  end.

Fixpoint countLt (a : Z) (d2 : list Z) : Z :=
  match d2 with
  | [] => 0
  | b :: r => (if a <? b then 1 else 0) + countLt a r
  end.

(** The ordered pairs of faces won and lost by [d1] against [d2]. *)
Fixpoint wins (d1 d2 : list Z) : Z :=
  match d1 with
  | [] => 0
  | a :: r => countGt a d2 + wins r d2
  end.

Fixpoint losses (d1 d2 : list Z) : Z :=
  match d1 with
  | [] => 0
  | a :: r => countLt a d2 + losses r d2
  end.

(** The 32-bit draws read from a run of bytes, four bytes each. *)
Fixpoint draws (bytes : list byte) : list Z :=
  match bytes with
  | b0 :: b1 :: b2 :: b3 :: rest => readUInt32BE b0 b1 b2 b3 :: draws rest
  | _ => []
  end.

(** ** A completed exchange, for the statements below *)

(** What one call of [fairRandom] has used: the 32 bytes of the key, the
    bytes read by the sampler, the secret it returned, the lines that
    were refused, the line that was accepted and its value. *)
Record exchange : Type := mkExchange {
  xKey : list byte;
  xSampled : list byte;
  xSecret : Z;
  xRefused : list string;
  xLine : string;
  xUserNum : Z
}.

Definition xDigest (x : exchange) : string :=
  hmacSha3 (xKey x) (toString (Num (xSecret x))).

Definition xResult (max : Z) (x : exchange) : Z :=
  (xSecret x + xUserNum x) mod max.

(** What is written for the lines refused: the question and the
    complaint, once for each. *)
Definition refusals (max : Z) (refused : list string) : list event :=
  flat_map (fun _ => [Question max; InvalidInput max]) refused.

(** What the exchange writes, in order. *)
Definition transcript (max : Z) (label : string) (x : exchange) : list event :=
  Committed label (xDigest x)
    :: refusals max (xRefused x)
    ++ [Question max;
        SecretNumber (Num (xSecret x));
        SecretKey (xKey x);
        YouEntered (Num (xUserNum x));
        Result max (Num (xResult max x))].

Definition completes (max : Z) (x : exchange) : Prop :=
  List.length (xKey x) = 32%nat
  /\ secureRandomIntFrom max (xSampled x) = Some (Num (xSecret x), [])
  /\ 0 <= xSecret x < max
  /\ Forall (fun line => validUserNum max (parseInt (trim line)) = false)
            (xRefused x)
  /\ parseInt (trim (xLine x)) = Num (xUserNum x)
  /\ 0 <= xUserNum x < max.

(** The exchange [x] leads from the world [w] to the world [w']: it
    takes its bytes and its lines from the front of what [w] holds, and
    adds its transcript to the output. *)
Definition runs (max : Z) (label : string) (w : World) (x : exchange)
           (w' : World) : Prop :=
  completes max x
  /\ entropy w = xKey x ++ xSampled x ++ entropy w'
  /\ stdin w = xRefused x ++ xLine x :: stdin w'
  /\ stdout w' = stdout w ++ transcript max label x.

(** The exchanges of lines 173-176, the first under [label]: each but the
    last gives the user's index and is followed by another under the
    re-roll label; the last gives [c], which is not the user's index. *)
Inductive rerolls (max : Z) (user : number)
  : string -> World -> list exchange -> number -> World -> Prop :=
| rerolls_last (label : string) (w : World) (x : exchange) (w' : World) :
    runs max label w x w' ->
    strictEq (Num (xResult max x)) user = false ->
    rerolls max user label w [x] (Num (xResult max x)) w'
| rerolls_again (label : string) (w : World) (x : exchange) (w1 : World)
                (xs : list exchange) (c : number) (w' : World) :
    runs max label w x w1 ->
    strictEq (Num (xResult max x)) user = true ->
    rerolls max user "Computer die choice (re-roll to avoid tie)" w1 xs c w' ->
    rerolls max user label w (x :: xs) c w'.

(** The bytes, the lines and the output of a sequence of exchanges, the
    first under [label] and the others under the re-roll label. *)
Definition bytesUsed (xs : list exchange) : list byte :=
  flat_map (fun x => xKey x ++ xSampled x) xs.

Definition linesUsed (xs : list exchange) : list string :=
  flat_map (fun x => xRefused x ++ [xLine x]) xs.

Definition transcripts (max : Z) (label : string) (xs : list exchange)
  : list event :=
  match xs with
  | [] => []
  | x :: r =>
      transcript max label x
        ++ flat_map (transcript max "Computer die choice (re-roll to avoid tie)") r
  end.

(** The digests disclosed in an output. *)
Definition digestsIn (out : list event) : list string :=
  flat_map (fun e => match e with Committed _ hmac => [hmac] | _ => [] end) out.

(** A world for the examples: two exchanges over three dice.  The first
    key is 0, 1, ..., 31 and the first draw 1; the second key is 32, ...,
    63 and the second draw 2.  The user types a word, then 0, then 0. *)
Definition demoWorld : World :=
  mkWorld
    (map byteOfZ (range 32) ++ [x00; x00; x00; x01]
       ++ map (fun z => byteOfZ (32 + z)) (range 32) ++ [x00; x00; x00; x02])
    ["zero"; "0"; "0"]%string
    [].

(** The test of line 16 on one argument, negated: the argument gives six
    numbers none of which is [NaN]. *)
Definition validDie (arg : string) : bool :=
  (Z.of_nat (List.length (parseFaces arg)) =? DICE_FACES)
  && negb (existsb isNaN (parseFaces arg)).

(** A world for one whole round over the three classic dice: the user
    picks die 1; four exchanges follow, with the draws 1, 2, 5 and 4 and
    the lines 0, 0, 3 and 1. *)
Definition roundWorld : World :=
  mkWorld
    (map byteOfZ (range 32) ++ [x00; x00; x00; x01]
       ++ map (fun z => byteOfZ (32 + z)) (range 32) ++ [x00; x00; x00; x02]
       ++ map (fun z => byteOfZ (64 + z)) (range 32) ++ [x00; x00; x00; x05]
       ++ map (fun z => byteOfZ (96 + z)) (range 32) ++ [x00; x00; x00; x04])
    ["1"; "0"; "0"; "3"; "1"]%string
    [].

(** ** The other copy of the script

    A second copy of the script differs in two places: the secret comes
    from Node's [crypto.randomInt(max)] instead of [secureRandomInt], and
    the computer's die is picked by a [do ... while] loop under a single
    label. *)

Section OtherCopy.

(** [crypto.randomInt(max)], which is not part of the script. *)
Variable randomInt : Z -> IO number.

Definition fairRandomCopy (max : Z) (label : string) : IO number :=
  key <- randomBytes 32 ;;
  compNum <- randomInt max ;;
  let hmac := hmacSha3 key (toString compNum) in
  log (Committed label hmac) ;;;
  userNum <- readUserNum max ;;
  let result := combine compNum userNum max in
  log (SecretNumber compNum) ;;;
  log (SecretKey key) ;;;
  log (YouEntered userNum) ;;;
  log (Result max result) ;;;
  ret result.

(** [do { compDie = await fairRandom(...) } while (compDie === userDie)]. *)
Fixpoint doWhile (fuel : nat) (diceLength : Z) (userDie : number) : IO number :=
  match fuel with
  | O => fun _ => None
  | S fuel' =>
      compDie <- fairRandomCopy diceLength "Computer die choice" ;;
      if strictEq compDie userDie then doWhile fuel' diceLength userDie
      else ret compDie
  end.

Definition chooseComputerDieCopy (diceLength : Z) (userDie : number) : IO number :=
  fun w => doWhile (List.length (stdin w)) diceLength userDie w.

End OtherCopy.

(** The three classic dice, and the arguments that give them. *)
Definition classicDice : list (list Z) :=
  [[2; 2; 4; 4; 9; 9]; [1; 1; 6; 6; 8; 8]; [3; 3; 5; 5; 7; 7]].

Definition classicArgs : list string :=
  ["2,2,4,4,9,9"; "1,1,6,6,8,8"; "3,3,5,5,7,7"]%string.

(** The pairs of faces that are equal. *)
Fixpoint countEq (a : Z) (d2 : list Z) : Z :=
  match d2 with
  | [] => 0
  | b :: r => (if a =? b then 1 else 0) + countEq a r
  end.

Fixpoint ties (d1 d2 : list Z) : Z :=
  match d1 with
  | [] => 0
  | a :: r => countEq a d2 + ties r d2
  end.

(** A character that is neither white space nor a comma. *)
Definition plainChar (c : ascii) : bool :=
  negb (isWhiteSpace c) && negb (Ascii.eqb c ",").

(** ** The table of [showProbabilities] (lines 84-136) *)

(** [x.toFixed(1)]: the integer [n] for which [n / 10] is nearest to
    [x], the larger one of two, written with one digit after the point;
    the sign is kept in front.  From 1e21 on JavaScript writes the number
    with an exponent instead, which is outside the model: [None]. *)
Definition toFixed1 (x : float) : option string :=
  match Prim2SF x with
  | S754_nan => Some "NaN"%string
  | S754_infinity s => Some (if s then "-Infinity" else "Infinity")%string
  | S754_zero _ => Some "0.0"%string
  | S754_finite s m e =>
      let num := Z.pos m * (if 0 <=? e then 2 ^ e else 1) in
      let den := if 0 <=? e then 1 else 2 ^ (- e) in
      if 10 ^ 21 * den <=? num then None
      else
        let n := (20 * num + den) / (2 * den) in
        let text :=
          (toString (Num (n / 10)) ++ "." ++ toString (Num (n mod 10)))%string in
        Some (if s then "-" ++ text else text)%string
  end.

(** The number of line 104 as a function of [winCount]. *)
Definition percentOfCount (count : Z) : float :=
  let total := DICE_FACES * DICE_FACES in
  PrimFloat.mul
    (PrimFloat.div (PrimFloat.of_uint63 (Uint63.of_Z count))
                   (PrimFloat.of_uint63 (Uint63.of_Z total)))
    (PrimFloat.of_uint63 (Uint63.of_Z 100)).

(** [s.length] for the ASCII strings of the table. *)
Definition strlen (s : string) : Z := Z.of_nat (String.length s).

(** [s.repeat(count)]: a negative count raises [RangeError] ([None]);
    [NaN] counts as 0. *)
Definition repeatString (s : string) (count : number) : option string :=
  match count with
  | NaN => Some EmptyString
  | Num k =>
      if k <? 0 then None
      else Some (String.concat "" (repeat s (Z.to_nat k)))
  end.

(** [pad(str, len)] of lines 116-118. *)
Definition pad (str : string) (len : number) : option string :=
  match repeatString " " (sub len (Num (strlen str))) with
  | Some spaces => Some (str ++ spaces)%string
  | None => None
  end.

(** [arr.map((x, i) => f(i, x))]. *)
Fixpoint mapiFrom {A B : Type} (f : nat -> A -> B) (i : nat) (l : list A)
  : list B :=
  match l with
  | [] => []
  | a :: r => f i a :: mapiFrom f (S i) r
  end.

Definition mapi {A B : Type} (f : nat -> A -> B) (l : list A) : list B :=
  mapiFrom f 0 l.

(** All the results, unless one of the computations raised. *)
Fixpoint sequence {A : Type} (l : list (option A)) : option (list A) :=
  match l with
  | [] => Some []
  | None :: _ => None
  | Some a :: r =>
      match sequence r with
      | Some r' => Some (a :: r')
      | None => None
      end
  end.

(** [arr.join(sep)]. *)
Fixpoint joinWith (sep : string) (l : list string) : string :=
  match l with
  | [] => EmptyString
  | [x] => x
  | x :: r => (x ++ sep ++ joinWith sep r)%string
  end.

(** [colWidths[i]] in an arithmetic expression: [undefined] gives
    [NaN]. *)
Definition widthAt (colWidths : list Z) (i : nat) : number :=
  match nth_error colWidths i with
  | Some w => Num w
  | None => NaN
  end.

(** Line 86. *)
Definition tableHeader (n : nat) : list string :=
  "Dice"%string :: map (fun i => toString (Num (Z.of_nat i))) (seq 0 n).

(** Lines 92-106: the cell of row [i] and column [j]. *)
Definition tableCell (i j : nat) (d1 d2 : list Z) : option string :=
  if Nat.eqb i j then Some "-"%string
  else match toFixed1 (percent d1 d2) with
       | Some text => Some (text ++ "%")%string
       | None => None
       end.

(** Lines 89-109. *)
Definition tableRows (dice : list (list Z)) : option (list (list string)) :=
  sequence
    (mapi (fun i d1 =>
             match sequence (mapi (fun j d2 => tableCell i j d1 d2) dice) with
             | Some cells => Some (toString (Num (Z.of_nat i)) :: cells)
             | None => None
             end)
          dice).

(** Lines 112-114; reading [r[i].length] in a row that has no cell [i]
    raises [TypeError]. *)
Definition colWidths (header : list string) (rows : list (list string))
  : option (list Z) :=
  sequence
    (mapi (fun i h =>
             match sequence
                     (map (fun r => option_map strlen (nth_error r i)) rows) with
             | Some lens => Some (fold_left Z.max lens (strlen h))
             | None => None
             end)
          header).

(** Line 120. *)
Definition ruleLine (widths : list Z) : option string :=
  match sequence (map (fun w => repeatString "-" (Num (w + 2))) widths) with
  | Some parts => Some ("+" ++ joinWith "+" parts ++ "+")%string
  | None => None
  end.

(** Lines 123-126 and 130-133: one row between bars. *)
Definition renderCells (cells : list string) (widths : list Z) : option string :=
  match sequence
          (mapi (fun i c =>
                   match pad c (widthAt widths i) with
                   | Some p => Some (" " ++ p ++ " ")%string
                   | None => None
                   end)
                cells) with
  | Some padded => Some ("|" ++ joinWith "|" padded ++ "|")%string
  | None => None
  end.

(** The lines the function writes, or [None] when it raises. *)
Definition showProbabilities (dice : list (list Z)) : option (list string) :=
  let header := tableHeader (List.length dice) in
  match tableRows dice with
  | None => None
  | Some rows =>
      match colWidths header rows with
      | None => None
      | Some widths =>
          match ruleLine widths, renderCells header widths,
                sequence (map (fun r => renderCells r widths) rows) with
          | Some line, Some head, Some body =>
              Some (line :: head :: line :: body ++ [line])
          | _, _, _ => None
          end
      end
  end.

(** The width of a printed row: a bar, then for each column a space, the
    cell padded to the width of the column, a space and a bar. *)
Fixpoint rowWidth (widths : list Z) : Z :=
  match widths with
  | [] => 1
  | w :: r => (w + 3) + rowWidth r
  end.

(** The tenths nearest to the exact percentage [100 * count / 36], and
    their text. *)
Definition nearestTenths (count : Z) : Z := (2000 * count + 36) / 72.

Definition tenthsText (n : Z) : string :=
  (toString (Num (n / 10)) ++ "." ++ toString (Num (n mod 10)))%string.

(** [toFixed1] gives that text for the count [k]. *)
Definition cellChecked (k : Z) : bool :=
  match toFixed1 (percentOfCount k) with
  | Some text => String.eqb text (tenthsText (nearestTenths k))
  | None => false
  end.

(** ** [main] and the whole script (lines 138-202) *)

Definition menuText : string :=
  (newline ++ "Menu:" ++ newline ++ "0 - Exit" ++ newline ++ "1 - Help"
     ++ newline ++ "2 - Play")%string.

(** The call [showProbabilities()] of line 153: the lines are written, or
    the exception ends the run. *)
Definition showProbabilitiesIO (dice : list (list Z)) : IO unit :=
  fun w =>
    match showProbabilities dice with
    | Some lines => logAll (map Line lines) w
    | None => None
    end.

(** The loop of lines 146-196; every turn reads a line, so [fuel] never
    needs to exceed the number of lines left. *)
Fixpoint menu (fuel : nat) (dice : list (list Z)) : IO unit :=
  match fuel with
  | O => fun _ => None
  | S fuel' =>
      log (Line menuText) ;;;
      choice <- ask (Line "Choose an option: ") ;;
      if String.eqb (trim choice) "0" then ret tt
      else if String.eqb (trim choice) "1"
      then showProbabilitiesIO dice ;;; menu fuel' dice
      else if String.eqb (trim choice) "2"
      then play dice ;;; menu fuel' dice
      else log (Line "Unknown option. Try again.") ;;; menu fuel' dice
  end.

(** Lines 138-200; [rl.close()] writes nothing. *)
Definition main (dice : list (list Z)) : IO unit :=
  log (Line "Dice configurations:") ;;;
  logAll (mapi (fun i d =>
                  Line ("Die " ++ toString (Num (Z.of_nat i)) ++ ": " ++ join d)%string)
               dice) ;;;
  firstMove <- fairRandom 2 "First move" ;;
  let userStarts := strictEq firstMove (Num 0) in
  log (Line (if userStarts then "You start first." else "Computer starts first.")) ;;;
  (fun w => menu (List.length (stdin w)) dice w) ;;;
  log (Line "Game ended.").

(** The script from its arguments to its exit code: 1 from
    [process.exit(1)] at start-up, 0 when [main] has returned. *)
Definition script (args : list string) (w : World) : option (Z * World) :=
  match start args with
  | Exit code messages =>
      Some (code, mkWorld (entropy w) (stdin w) (stdout w ++ map Line messages))
  | Ready dice =>
      match main dice w with
      | Some (_, w') => Some (0, w')
      | None => None
      end
  end.

(** An exchange reported in the output is in order when its bound is at
    least 2 and its result is an integer below the bound. *)
Definition exchangeInOrder (e : event) : Prop :=
  match e with
  | Result max r => 2 <= max /\ exists v, r = Num v /\ 0 <= v < max
  | _ => True
  end.

(** From [w] to [w'] lines were only read from the front of the input
    and events satisfying [P] only added at the end of the output. *)
Definition grows (P : event -> Prop) (w w' : World) : Prop :=
  (exists used, stdin w = used ++ stdin w')
  /\ exists new, stdout w' = stdout w ++ new /\ Forall P new.

Definition growing (P : event -> Prop) {A : Type} (m : IO A) : Prop :=
  forall w a w', m w = Some (a, w') -> grows P w w'.

(** A world for a whole run of the script: the first move, the table,
    an unknown option, one round and the exit. *)
Definition gameWorld : World :=
  mkWorld
    (map (fun z => byteOfZ (200 + z)) (range 32) ++ [x00; x00; x00; x01]
       ++ entropy roundWorld)
    (["1"; "1"; "help"; "2"] ++ stdin roundWorld ++ [" 0 "; "2"])%list%string
    [].

(** A world in which the choice of the computer's die collides twice:
    three exchanges over three dice, with the draws 1, 1 and 2; the user
    types 0, then 0, then a word and 0. *)
Definition rerollWorld : World :=
  mkWorld
    (map byteOfZ (range 32) ++ [x00; x00; x00; x01]
       ++ map (fun z => byteOfZ (32 + z)) (range 32) ++ [x00; x00; x00; x01]
       ++ map (fun z => byteOfZ (64 + z)) (range 32) ++ [x00; x00; x00; x02])
    ["0"; "0"; "again"; "0"]%string
    [].

(** [Number.MAX_SAFE_INTEGER]: up to it every integer is a binary64
    value, [parseInt] gives the integer a token spells and [toString]
    writes every digit of it. *)
Definition MAX_SAFE_INTEGER : Z := 9007199254740991.

Definition safeInteger (z : Z) : Prop := Z.abs z <= MAX_SAFE_INTEGER.

Definition safeNumber (x : number) : Prop :=
  match x with
  | Num z => safeInteger z
  | NaN => True
  end.

(** * Properties *)

(** ** The primitives on examples *)

Example parseInt_plain : parseInt "42" = Num 42.
Proof. reflexivity. Qed.

Example parseInt_negative : parseInt " -7" = Num (-7).
Proof. reflexivity. Qed.

Example parseInt_word : parseInt "six" = NaN.
Proof. reflexivity. Qed.

Example parseInt_empty : parseInt "" = NaN.
Proof. reflexivity. Qed.

Example parseInt_prefix : parseInt "1.5" = Num 1 /\ parseInt "2abc" = Num 2.
Proof. split; reflexivity. Qed.

Example toString_ten : toString (Num 10) = "10"%string.
Proof. reflexivity. Qed.

Example split_die :
  split "," "2,2,4,4,9,9" = ["2"; "2"; "4"; "4"; "9"; "9"]%string.
Proof. reflexivity. Qed.

Example split_empty : split "," "" = [""%string].
Proof. reflexivity. Qed.

Example hex_bytes : hex [x00; x0f; xa5; xff] = "000fa5ff"%string.
Proof. reflexivity. Qed.

Example readUInt32BE_max : readUInt32BE xff xff xff xff = 0xFFFFFFFF.
Proof. reflexivity. Qed.

Example start_classic :
  start ["2,2,4,4,9,9"; "1,1,6,6,8,8"; "3,3,5,5,7,7"]%string
  = Ready [[2;2;4;4;9;9]; [1;1;6;6;8;8]; [3;3;5;5;7;7]].
Proof. reflexivity. Qed.

(** ** Arithmetic of [%] on the values the program meets *)

Lemma rem_nonneg_pos (x y : Z) :
  0 <= x -> 0 < y -> rem (Num x) (Num y) = Num (x mod y).
Proof.
  intros Hx Hy. unfold rem.
  destruct (Z.eqb_spec y 0) as [E | _]; [lia |].
  now rewrite Z.rem_mod_nonneg by lia.
Qed.

Lemma combine_mod (s c max : Z) :
  0 <= s -> 0 <= c -> 0 < max ->
  combine (Num s) (Num c) max = Num ((s + c) mod max).
Proof.
  intros Hs Hc Hm. unfold combine. cbn [add].
  apply rem_nonneg_pos; lia.
Qed.

Lemma accepts_spec (max num : Z) :
  0 < max ->
  accepts max num = (num <? 0xFFFFFFFF - 0xFFFFFFFF mod max).
Proof.
  intros Hm. unfold accepts.
  rewrite rem_nonneg_pos by lia. reflexivity.
Qed.

Lemma accepts_zero (num : Z) : accepts 0 num = false.
Proof. reflexivity. Qed.

Lemma byteValue_range (b : byte) : 0 <= byteValue b < 256.
Proof.
  unfold byteValue. pose proof (Byte.to_N_bounded b) as H. lia.
Qed.

Lemma readUInt32BE_nonneg (b0 b1 b2 b3 : byte) : 0 <= readUInt32BE b0 b1 b2 b3.
Proof.
  unfold readUInt32BE.
  pose proof (byteValue_range b0). pose proof (byteValue_range b1).
  pose proof (byteValue_range b2). pose proof (byteValue_range b3).
  repeat (apply Z.lor_nonneg; split); try apply Z.shiftl_nonneg; lia.
Qed.

(** ** Comparing two dice *)

(** The inner loop adds to the two counters the faces of [d2] below and
    above [a]. *)
Lemma inner_loop_counts (a : Z) (d2 : list Z) (win lose : Z) :
  fold_left
    (fun '(win, lose) b =>
       if a >? b then (win + 1, lose)
       else if a <? b then (win, lose + 1)
       else (win, lose))
    d2 (win, lose)
  = (win + countGt a d2, lose + countLt a d2).
Proof.
  revert win lose.
  induction d2 as [| b d2 IH]; intros win lose; cbn [fold_left countGt countLt].
  - f_equal; lia.
  - destruct (a >? b) eqn:Hgt; destruct (a <? b) eqn:Hlt;
      rewrite IH; f_equal; lia.
Qed.

Lemma outer_loop_counts (d1 d2 : list Z) (win lose : Z) :
  fold_left
    (fun st a =>
       fold_left
         (fun '(win, lose) b =>
            if a >? b then (win + 1, lose)
            else if a <? b then (win, lose + 1)
            else (win, lose))
         d2 st)
    d1 (win, lose)
  = (win + wins d1 d2, lose + losses d1 d2).
Proof.
  revert win lose.
  induction d1 as [| a d1 IH]; intros win lose; cbn [fold_left wins losses].
  - f_equal; lia.
  - rewrite inner_loop_counts, IH. f_equal; lia.
Qed.

Lemma countFaces_counts (d1 d2 : list Z) :
  countFaces d1 d2 = (wins d1 d2, losses d1 d2).
Proof. unfold countFaces. now rewrite outer_loop_counts. Qed.

Lemma winCount_inner (a : Z) (d2 : list Z) (count : Z) :
  fold_left (fun count b => if a >? b then count + 1 else count) d2 count
  = count + countGt a d2.
Proof.
  revert count.
  induction d2 as [| b d2 IH]; intros count; cbn [fold_left countGt]; [lia |].
  rewrite IH. destruct (a >? b); lia.
Qed.

Lemma winCount_outer (d1 d2 : list Z) (count : Z) :
  fold_left
    (fun count a =>
       fold_left (fun count b => if a >? b then count + 1 else count) d2 count)
    d1 count
  = count + wins d1 d2.
Proof.
  revert count.
  induction d1 as [| a d1 IH]; intros count; cbn [fold_left wins]; [lia |].
  rewrite IH, winCount_inner. lia.
Qed.

Lemma winCount_wins (d1 d2 : list Z) : winCount d1 d2 = wins d1 d2.
Proof. unfold winCount. now rewrite winCount_outer. Qed.

Lemma wins_nil_r (d1 : list Z) : wins d1 [] = 0.
Proof. induction d1 as [| a d1 IH]; cbn; lia. Qed.

Lemma wins_cons_r (d1 : list Z) (b : Z) (d2 : list Z) :
  wins d1 (b :: d2) = countLt b d1 + wins d1 d2.
Proof.
  induction d1 as [| a d1 IH]; cbn [wins countGt countLt]; [lia |].
  rewrite IH.
  destruct (Z.gtb_spec a b), (Z.ltb_spec b a); lia.
Qed.

(** A pair won by [d1] against [d2] is a pair lost by [d2] against
    [d1]. *)
Lemma wins_losses (d1 d2 : list Z) : wins d1 d2 = losses d2 d1.
Proof.
  induction d2 as [| b d2 IH]; cbn [losses].
  - apply wins_nil_r.
  - rewrite wins_cons_r, IH. reflexivity.
Qed.

Lemma compareDice_counts (d1 d2 : list Z) :
  compareDice d1 d2 = Z.sgn (wins d1 d2 - losses d1 d2).
Proof.
  unfold compareDice. rewrite countFaces_counts.
  destruct (Z.gtb_spec (wins d1 d2) (losses d1 d2));
    destruct (Z.gtb_spec (losses d1 d2) (wins d1 d2)); lia.
Qed.

(** C10: [compareDice] is antisymmetric: exchanging the two dice negates
    the result, so one die wins exactly when the other loses, and a tie
    is a tie both ways.  It holds for dice of any length. *)
Theorem compareDice_antisymmetric (A B : list Z) :
  compareDice A B = - compareDice B A
  /\ (CompareDice A B = WinsAgainst <-> CompareDice B A = LosesAgainst)
  /\ (CompareDice A B = LosesAgainst <-> CompareDice B A = WinsAgainst)
  /\ (CompareDice A B = Tie <-> CompareDice B A = Tie).
Proof.
  assert (E : compareDice A B = - compareDice B A).
  { rewrite !compareDice_counts, (wins_losses A B), (wins_losses B A). lia. }
  split; [exact E |].
  unfold CompareDice. rewrite E.
  assert (R : compareDice B A = 1 \/ compareDice B A = -1 \/ compareDice B A = 0).
  { rewrite compareDice_counts. lia. }
  destruct R as [R | [R | R]]; rewrite R; cbn; repeat split; intros; congruence.
Qed.

(** C9: the three classic dice form a cycle: each beats the next with
    more pairs won than lost out of 36, and a win probability, as
    [showProbabilities] computes it, above 50. *)
Theorem nontransitive_cycle :
  let d0 := [2; 2; 4; 4; 9; 9] in
  let d1 := [1; 1; 6; 6; 8; 8] in
  let d2 := [3; 3; 5; 5; 7; 7] in
  (compareDice d0 d1 = 1 /\ compareDice d1 d2 = 1 /\ compareDice d2 d0 = 1)
  /\ (CompareDice d0 d1 = WinsAgainst /\ CompareDice d1 d2 = WinsAgainst
      /\ CompareDice d2 d0 = WinsAgainst)
  /\ (countFaces d0 d1 = (20, 16) /\ countFaces d1 d2 = (20, 16)
      /\ countFaces d2 d0 = (20, 16))
  /\ (winCount d0 d1 = 20 /\ winCount d1 d2 = 20 /\ winCount d2 d0 = 20)
  /\ (PrimFloat.ltb 50 (percent d0 d1) = true
      /\ PrimFloat.ltb 50 (percent d1 d2) = true
      /\ PrimFloat.ltb 50 (percent d2 d0) = true)
  /\ (50 * 36 < winCount d0 d1 * 100 /\ 50 * 36 < winCount d1 d2 * 100
      /\ 50 * 36 < winCount d2 d0 * 100).
Proof.
  cbv zeta. repeat split; vm_compute; reflexivity.
Qed.

(** ** Counting integers below a bound *)

Lemma in_range (n : nat) (x : Z) : In x (range n) <-> 0 <= x < Z.of_nat n.
Proof.
  unfold range. rewrite in_map_iff. split.
  - intros (i & <- & Hi). apply in_seq in Hi. lia.
  - intros Hx. exists (Z.to_nat x). split; [lia |]. apply in_seq. lia.
Qed.

Lemma range_NoDup (n : nat) : NoDup (range n).
Proof.
  unfold range. apply Finite.Injective_map_NoDup_in; [| apply seq_NoDup].
  intros a b _ _ H. lia.
Qed.

Lemma map_of_nat_seq (a b : nat) :
  map Z.of_nat (seq a b) = map (fun j => Z.of_nat a + j) (range b).
Proof.
  unfold range. rewrite map_map.
  revert a. induction b as [| b IH]; intros a; [reflexivity |].
  cbn [seq map]. f_equal; [lia |].
  rewrite IH, <- seq_shift, map_map.
  apply map_ext. intros j. lia.
Qed.

Lemma range_app (a b : nat) :
  range (a + b) = range a ++ map (fun j => Z.of_nat a + j) (range b).
Proof.
  unfold range at 1 2. rewrite seq_app, map_app. f_equal.
  apply map_of_nat_seq.
Qed.

Lemma filter_none (p : Z -> bool) (l : list Z) :
  (forall x, In x l -> p x = false) -> filter p l = [].
Proof.
  induction l as [| a l IH]; intros H; [reflexivity |].
  cbn [filter]. rewrite (H a (or_introl eq_refl)).
  apply IH. intros x Hx. apply H. now right.
Qed.

(** A predicate that holds at exactly one element of a list without
    repetition is counted once. *)
Lemma count_unique (p : Z -> bool) (l : list Z) (x : Z) :
  NoDup l -> In x l -> (forall y, In y l -> (p y = true <-> y = x)) ->
  List.length (filter p l) = 1%nat.
Proof.
  intros Hnd. revert x.
  induction Hnd as [| a l Hna Hnd IH]; intros x Hin Hp; [destruct Hin |].
  cbn [filter].
  destruct (p a) eqn:Hpa.
  - apply (Hp a (or_introl eq_refl)) in Hpa. subst a.
    cbn [List.length]. f_equal.
    rewrite filter_none; [reflexivity |].
    intros y Hy. destruct (p y) eqn:Hpy; [| reflexivity].
    apply (Hp y (or_intror Hy)) in Hpy. subst y. contradiction.
  - destruct Hin as [-> | Hin].
    + assert (p x = true) by (apply (Hp x (or_introl eq_refl)); reflexivity).
      congruence.
    + apply (IH x Hin). intros y Hy. apply Hp. now right.
Qed.

Lemma countBelow_ext (p q : Z -> bool) (n : nat) :
  (forall x, 0 <= x < Z.of_nat n -> p x = q x) ->
  countBelow p n = countBelow q n.
Proof.
  intros H. unfold countBelow. f_equal.
  apply filter_ext_in. intros x Hx. apply H. now apply in_range.
Qed.

Lemma countBelow_app (p : Z -> bool) (a b : nat) :
  countBelow p (a + b)
  = (countBelow p a + countBelow (fun j => p (Z.of_nat a + j)%Z) b)%nat.
Proof.
  unfold countBelow.
  rewrite range_app, filter_app, length_app, filter_map_swap, length_map.
  reflexivity.
Qed.

Lemma countBelow_none (p : Z -> bool) (n : nat) :
  (forall x, 0 <= x < Z.of_nat n -> p x = false) -> countBelow p n = 0%nat.
Proof.
  intros H. unfold countBelow.
  rewrite filter_none; [reflexivity |].
  intros x Hx. apply H. now apply in_range.
Qed.

Lemma countBelow_one (r : Z) (n : nat) :
  0 <= r < Z.of_nat n -> countBelow (fun j => j =? r) n = 1%nat.
Proof.
  intros Hr. unfold countBelow.
  apply (count_unique _ _ r (range_NoDup n)); [now apply in_range |].
  intros y _. apply Z.eqb_eq.
Qed.

(** Among the first [k * m] integers, [k] have the residue [r]. *)
Lemma countBelow_residue (m r : Z) (k : nat) :
  0 <= r < m ->
  countBelow (fun n => n mod m =? r) (k * Z.to_nat m) = k.
Proof.
  intros Hr.
  induction k as [| k IH]; [reflexivity |].
  replace (S k * Z.to_nat m)%nat with (k * Z.to_nat m + Z.to_nat m)%nat by lia.
  rewrite countBelow_app, IH.
  rewrite (countBelow_ext _ (fun j => j =? r)).
  - rewrite countBelow_one; lia.
  - intros x Hx.
    replace (Z.of_nat (k * Z.to_nat m) + x) with (x + Z.of_nat k * m) by lia.
    rewrite Z.mod_add by lia. rewrite Z.mod_small by lia. reflexivity.
Qed.

(** Cutting the count at [c]: nothing at or above [c] is counted. *)
Lemma countBelow_cut (q : Z -> bool) (c : Z) (n : nat) :
  0 <= c <= Z.of_nat n ->
  countBelow (fun x => (x <? c) && q x) n = countBelow q (Z.to_nat c).
Proof.
  intros Hc.
  replace n with (Z.to_nat c + (n - Z.to_nat c))%nat by lia.
  rewrite countBelow_app.
  rewrite (countBelow_none (fun j => _) (n - Z.to_nat c)).
  - rewrite Nat.add_0_r. apply countBelow_ext.
    intros x Hx. destruct (Z.ltb_spec x c); [reflexivity | lia].
  - intros x Hx. destruct (Z.ltb_spec (Z.of_nat (Z.to_nat c) + x) c); [lia | reflexivity].
Qed.

(** ** The combination of the two contributions *)

Lemma mod_shift (s c max : Z) :
  0 <= s < max -> 0 <= c < max ->
  (s + c) mod max = if s + c <? max then s + c else s + c - max.
Proof.
  intros Hs Hc. destruct (Z.ltb_spec (s + c) max).
  - apply Z.mod_small. lia.
  - symmetry. apply (Z.mod_unique_pos _ _ 1); lia.
Qed.

(** C1: for a fixed counterparty value, the secret is mapped to the
    result one-to-one and onto [0, max): every result has exactly one
    secret, so a secret drawn uniformly gives a uniform result whatever
    the counterparty value is. *)
Theorem combine_bijection (max c : Z) :
  2 <= max -> 0 <= c < max ->
  (forall s, 0 <= s < max ->
     combine (Num s) (Num c) max = Num ((s + c) mod max)
     /\ 0 <= (s + c) mod max < max)
  /\ (forall s1 s2, 0 <= s1 < max -> 0 <= s2 < max ->
        combine (Num s1) (Num c) max = combine (Num s2) (Num c) max -> s1 = s2)
  /\ (forall r, 0 <= r < max ->
        exists s, 0 <= s < max /\ combine (Num s) (Num c) max = Num r)
  /\ (forall r, 0 <= r < max -> List.length (secretsTo max c r) = 1%nat).
Proof.
  intros Hmax Hc.
  assert (Inj : forall s1 s2, 0 <= s1 < max -> 0 <= s2 < max ->
                  (s1 + c) mod max = (s2 + c) mod max -> s1 = s2).
  { intros s1 s2 H1 H2. rewrite !mod_shift by lia.
    destruct (Z.ltb_spec (s1 + c) max), (Z.ltb_spec (s2 + c) max); lia. }
  assert (Sur : forall r, 0 <= r < max ->
                  exists s, 0 <= s < max /\ (s + c) mod max = r).
  { intros r Hr. exists (if c <=? r then r - c else r - c + max).
    destruct (Z.leb_spec c r); (split; [lia |]); rewrite mod_shift by lia.
    - destruct (Z.ltb_spec (r - c + c) max); lia.
    - destruct (Z.ltb_spec (r - c + max + c) max); lia. }
  split; [| split; [| split]].
  - intros s Hs. split; [apply combine_mod; lia |].
    apply Z.mod_pos_bound. lia.
  - intros s1 s2 H1 H2. rewrite !combine_mod by lia.
    intros E. injection E as E. now apply Inj.
  - intros r Hr. destruct (Sur r Hr) as (s & Hs & E).
    exists s. split; [exact Hs |]. rewrite combine_mod by lia. now rewrite E.
  - intros r Hr. destruct (Sur r Hr) as (s & Hs & E).
    unfold secretsTo.
    apply (count_unique _ _ s (range_NoDup _)); [apply in_range; lia |].
    intros y Hy. apply in_range in Hy.
    rewrite combine_mod by lia. cbn [strictEq]. rewrite Z.eqb_eq. split.
    + intros E'. apply Inj; lia.
    + intros ->. exact E.
Qed.

Lemma combine_bijection_witness :
  (forall s, 0 <= s < 6 ->
     combine (Num s) (Num 4) 6 = Num ((s + 4) mod 6)
     /\ 0 <= (s + 4) mod 6 < 6)
  /\ (forall s1 s2, 0 <= s1 < 6 -> 0 <= s2 < 6 ->
        combine (Num s1) (Num 4) 6 = combine (Num s2) (Num 4) 6 -> s1 = s2)
  /\ (forall r, 0 <= r < 6 ->
        exists s, 0 <= s < 6 /\ combine (Num s) (Num 4) 6 = Num r)
  /\ (forall r, 0 <= r < 6 -> List.length (secretsTo 6 4 r) = 1%nat).
Proof. apply (combine_bijection 6 4); lia. Defined.

Example secretsTo_example : secretsTo 6 4 1 = [3].
Proof. reflexivity. Qed.

(** ** The 32-bit draw *)

Lemma testbit_small (lo k m : Z) :
  0 <= lo < 2 ^ k -> k <= m -> Z.testbit lo m = false.
Proof.
  intros Hlo Hm.
  destruct (Z.eq_dec lo 0) as [-> | Hnz]; [apply Z.bits_0 |].
  apply Z.bits_above_log2; [lia |].
  assert (Z.log2 lo < k) by (apply Z.log2_lt_pow2; lia). lia.
Qed.

Lemma lor_shiftl_add (hi lo k : Z) :
  0 <= k -> 0 <= lo < 2 ^ k ->
  Z.lor (Z.shiftl hi k) lo = hi * 2 ^ k + lo.
Proof.
  intros Hk Hlo.
  assert (D : Z.land (Z.shiftl hi k) lo = 0).
  { apply Z.bits_inj'. intros m Hm.
    rewrite Z.land_spec, Z.bits_0.
    destruct (Z.lt_ge_cases m k).
    - now rewrite Z.shiftl_spec_low.
    - rewrite (testbit_small lo k m) by lia. apply andb_false_r. }
  rewrite <- Z.lxor_lor, <- Z.add_nocarry_lxor by exact D.
  now rewrite Z.shiftl_mul_pow2.
Qed.

Lemma readUInt32BE_value (b0 b1 b2 b3 : byte) :
  readUInt32BE b0 b1 b2 b3
  = byteValue b0 * 2 ^ 24 + byteValue b1 * 2 ^ 16 + byteValue b2 * 2 ^ 8
    + byteValue b3.
Proof.
  unfold readUInt32BE.
  pose proof (byteValue_range b0). pose proof (byteValue_range b1).
  pose proof (byteValue_range b2). pose proof (byteValue_range b3).
  rewrite (lor_shiftl_add (byteValue b2) (byteValue b3) 8) by lia.
  rewrite (lor_shiftl_add (byteValue b1) _ 16) by lia.
  rewrite (lor_shiftl_add (byteValue b0) _ 24) by lia.
  lia.
Qed.

Lemma readUInt32BE_range (b0 b1 b2 b3 : byte) :
  0 <= readUInt32BE b0 b1 b2 b3 < 0x100000000.
Proof.
  rewrite readUInt32BE_value.
  pose proof (byteValue_range b0). pose proof (byteValue_range b1).
  pose proof (byteValue_range b2). pose proof (byteValue_range b3).
  lia.
Qed.

(** ** The rejection sampler *)

(** Induction on a run of bytes, four at a time. *)
Lemma bytes_ind4 (P : list byte -> Prop) :
  (forall l, (List.length l < 4)%nat -> P l) ->
  (forall b0 b1 b2 b3 rest, P rest -> P (b0 :: b1 :: b2 :: b3 :: rest)) ->
  forall l, P l.
Proof.
  intros Hshort Hstep l.
  enough (G : forall n l', (List.length l' < n)%nat -> P l')
    by (apply (G (S (List.length l))); lia).
  induction n as [| n IH]; intros l' Hl; [lia |].
  destruct l' as [| b0 [| b1 [| b2 [| b3 rest]]]];
    try (apply Hshort; cbn; lia).
  apply Hstep, IH. cbn in Hl. lia.
Qed.

Lemma secureRandomIntFrom_short (max : Z) (l : list byte) :
  (List.length l < 4)%nat -> secureRandomIntFrom max l = None.
Proof.
  destruct l as [| b0 [| b1 [| b2 [| b3 rest]]]]; cbn [List.length]; intros H;
    [reflexivity | reflexivity | reflexivity | reflexivity | lia].
Qed.

Lemma draws_short (l : list byte) :
  (List.length l < 4)%nat -> draws l = [].
Proof.
  destruct l as [| b0 [| b1 [| b2 [| b3 rest]]]]; cbn [List.length]; intros H;
    [reflexivity | reflexivity | reflexivity | reflexivity | lia].
Qed.

(** What a run of the sampler has read: draws that were refused, then
    the draw that was accepted. *)
Lemma secureRandomIntFrom_inv (max : Z) (bytes : list byte) (v : number)
      (rest : list byte) :
  secureRandomIntFrom max bytes = Some (v, rest) ->
  exists rejected b0 b1 b2 b3,
    bytes = rejected ++ b0 :: b1 :: b2 :: b3 :: rest
    /\ List.length rejected = (4 * List.length (draws rejected))%nat
    /\ Forall (fun num => accepts max num = false) (draws rejected)
    /\ accepts max (readUInt32BE b0 b1 b2 b3) = true
    /\ v = rem (Num (readUInt32BE b0 b1 b2 b3)) (Num max).
Proof.
  revert v rest. induction bytes as [l Hl | b0 b1 b2 b3 tl IH] using bytes_ind4;
    intros v rest H.
  - rewrite secureRandomIntFrom_short in H by exact Hl. discriminate.
  - cbn [secureRandomIntFrom] in H.
    destruct (accepts max (readUInt32BE b0 b1 b2 b3)) eqn:Hacc.
    + injection H as <- <-.
      exists [], b0, b1, b2, b3.
      split; [reflexivity |]. split; [reflexivity |].
      split; [constructor |]. split; [exact Hacc | reflexivity].
    + destruct (IH _ _ H) as (rej & c0 & c1 & c2 & c3 & -> & Hlen & Hrej & Hok & ->).
      exists (b0 :: b1 :: b2 :: b3 :: rej), c0, c1, c2, c3.
      cbn [app draws List.length].
      split; [reflexivity |]. split; [lia |].
      split; [constructor; assumption |]. split; [exact Hok | reflexivity].
Qed.

(** Conversely the sampler returns as soon as the bytes hold an accepted
    draw. *)
Lemma secureRandomIntFrom_complete (max : Z) (rejected : list byte)
      (b0 b1 b2 b3 : byte) (rest : list byte) :
  List.length rejected = (4 * List.length (draws rejected))%nat ->
  Forall (fun num => accepts max num = false) (draws rejected) ->
  accepts max (readUInt32BE b0 b1 b2 b3) = true ->
  secureRandomIntFrom max (rejected ++ b0 :: b1 :: b2 :: b3 :: rest)
  = Some (rem (Num (readUInt32BE b0 b1 b2 b3)) (Num max), rest).
Proof.
  induction rejected as [l Hl | c0 c1 c2 c3 tl IH] using bytes_ind4;
    intros Hlen Hrej Hok.
  - rewrite draws_short in Hlen by exact Hl.
    destruct l; [| cbn in Hlen; lia].
    cbn [app secureRandomIntFrom]. now rewrite Hok.
  - cbn [draws List.length] in Hlen. cbn [draws] in Hrej.
    inversion Hrej as [| ? ? Hc Hrej']; subst.
    cbn [app secureRandomIntFrom]. rewrite Hc.
    apply IH; [lia | assumption | assumption].
Qed.

Lemma cutoff_multiple (max : Z) :
  0 < max ->
  0xFFFFFFFF - 0xFFFFFFFF mod max = (0xFFFFFFFF / max) * max.
Proof.
  intros Hm. pose proof (Z.div_mod 0xFFFFFFFF max ltac:(lia)). lia.
Qed.

Lemma acceptedTo_count (max r : Z) (n : nat) :
  0 < max -> 0 <= r < max ->
  0xFFFFFFFF - 0xFFFFFFFF mod max <= Z.of_nat n ->
  acceptedTo max r n = Z.to_nat ((0xFFFFFFFF - 0xFFFFFFFF mod max) / max).
Proof.
  intros Hm Hr Hn. unfold acceptedTo.
  set (cutoff := 0xFFFFFFFF - 0xFFFFFFFF mod max) in *.
  assert (Hc : cutoff = (0xFFFFFFFF / max) * max) by (apply cutoff_multiple; lia).
  assert (Hq : 0 <= 0xFFFFFFFF / max) by (apply Z.div_pos; lia).
  rewrite (countBelow_ext _ (fun x => (x <? cutoff) && (x mod max =? r))).
  - rewrite countBelow_cut by lia.
    rewrite Hc at 1. rewrite Z2Nat.inj_mul by lia.
    rewrite countBelow_residue by lia.
    rewrite Hc, Z.div_mul by lia. reflexivity.
  - intros x Hx. rewrite accepts_spec by lia.
    rewrite rem_nonneg_pos by lia. reflexivity.
Qed.

(** C3: the sampler accepts a draw exactly when it is below a cutoff that
    is a multiple of [max], and tries the next draw otherwise: at each
    turn it returns the draw reduced modulo [max] if it is accepted and
    goes on with the bytes that follow if it is not.  So it returns
    exactly when a run of refused draws is followed by an accepted one,
    and then gives that draw modulo [max], a value of [0, max), leaving
    the bytes after it.  Every residue is the image of the same number
    of accepted 32-bit draws. *)
Theorem secureRandomInt_unbiased (max : Z) :
  2 <= max <= 0x100000000 ->
  let cutoff := 0xFFFFFFFF - 0xFFFFFFFF mod max in
  cutoff mod max = 0
  /\ (forall num, accepts max num = true <-> num < cutoff)
  /\ (forall b0 b1 b2 b3 rest,
        secureRandomIntFrom max (b0 :: b1 :: b2 :: b3 :: rest)
        = if readUInt32BE b0 b1 b2 b3 <? cutoff
          then Some (Num (readUInt32BE b0 b1 b2 b3 mod max), rest)
          else secureRandomIntFrom max rest)
  /\ (forall bytes v rest,
        secureRandomIntFrom max bytes = Some (v, rest)
        <-> exists rejected b0 b1 b2 b3,
              bytes = rejected ++ b0 :: b1 :: b2 :: b3 :: rest
              /\ List.length rejected = (4 * List.length (draws rejected))%nat
              /\ Forall (fun num => accepts max num = false) (draws rejected)
              /\ 0 <= readUInt32BE b0 b1 b2 b3 < 0x100000000
              /\ accepts max (readUInt32BE b0 b1 b2 b3) = true
              /\ v = Num (readUInt32BE b0 b1 b2 b3 mod max)
              /\ 0 <= readUInt32BE b0 b1 b2 b3 mod max < max)
  /\ (forall w v w',
        secureRandomInt max w = Some (v, w')
        <-> secureRandomIntFrom max (entropy w) = Some (v, entropy w')
            /\ stdin w' = stdin w /\ stdout w' = stdout w)
  /\ (forall r, 0 <= r < max ->
        acceptedTo max r (Z.to_nat 0x100000000) = Z.to_nat (cutoff / max)).
Proof.
  intros Hmax cutoff.
  split; [| split; [| split; [| split; [| split]]]].
  - unfold cutoff. rewrite cutoff_multiple by lia. apply Z.mod_mul. lia.
  - intros num. rewrite accepts_spec by lia. apply Z.ltb_lt.
  - intros b0 b1 b2 b3 rest. cbn [secureRandomIntFrom].
    pose proof (readUInt32BE_nonneg b0 b1 b2 b3) as Hnn.
    rewrite accepts_spec, rem_nonneg_pos by lia. reflexivity.
  - intros bytes v rest. split.
    + intros H.
      destruct (secureRandomIntFrom_inv _ _ _ _ H)
        as (rej & b0 & b1 & b2 & b3 & E & Hlen & Hrej & Hok & Hv).
      exists rej, b0, b1, b2, b3.
      pose proof (readUInt32BE_range b0 b1 b2 b3) as Hnn.
      rewrite rem_nonneg_pos in Hv by lia.
      pose proof (Z.mod_pos_bound (readUInt32BE b0 b1 b2 b3) max ltac:(lia)).
      split; [exact E |]. split; [exact Hlen |]. split; [exact Hrej |].
      split; [exact Hnn |]. split; [exact Hok |].
      split; [exact Hv | assumption].
    + intros (rej & b0 & b1 & b2 & b3 & -> & Hlen & Hrej & Hnn & Hok & -> & _).
      rewrite <- rem_nonneg_pos by lia.
      now apply secureRandomIntFrom_complete.
  - intros w v w'. unfold secureRandomInt.
    destruct (secureRandomIntFrom max (entropy w)) as [[v0 rest] |]; split.
    + intros H. injection H as <- <-. cbn [entropy stdin stdout].
      split; [reflexivity |]. split; reflexivity.
    + destruct w' as [e' i' o']. cbn [entropy stdin stdout].
      intros (H & -> & ->). injection H as -> ->. reflexivity.
    + discriminate.
    + intros (H & _). discriminate.
  - intros r Hr. apply acceptedTo_count; try lia.
    rewrite Z2Nat.id by lia.
    pose proof (Z.mod_pos_bound 0xFFFFFFFF max ltac:(lia)). lia.
Qed.

Lemma secureRandomInt_unbiased_witness :
  (0xFFFFFFFF - 0xFFFFFFFF mod 6) mod 6 = 0
  /\ (forall num, accepts 6 num = true <-> num < 0xFFFFFFFF - 0xFFFFFFFF mod 6)
  /\ (forall b0 b1 b2 b3 rest,
        secureRandomIntFrom 6 (b0 :: b1 :: b2 :: b3 :: rest)
        = if readUInt32BE b0 b1 b2 b3 <? 0xFFFFFFFF - 0xFFFFFFFF mod 6
          then Some (Num (readUInt32BE b0 b1 b2 b3 mod 6), rest)
          else secureRandomIntFrom 6 rest)
  /\ (forall bytes v rest,
        secureRandomIntFrom 6 bytes = Some (v, rest)
        <-> exists rejected b0 b1 b2 b3,
              bytes = rejected ++ b0 :: b1 :: b2 :: b3 :: rest
              /\ List.length rejected = (4 * List.length (draws rejected))%nat
              /\ Forall (fun num => accepts 6 num = false) (draws rejected)
              /\ 0 <= readUInt32BE b0 b1 b2 b3 < 0x100000000
              /\ accepts 6 (readUInt32BE b0 b1 b2 b3) = true
              /\ v = Num (readUInt32BE b0 b1 b2 b3 mod 6)
              /\ 0 <= readUInt32BE b0 b1 b2 b3 mod 6 < 6)
  /\ (forall w v w',
        secureRandomInt 6 w = Some (v, w')
        <-> secureRandomIntFrom 6 (entropy w) = Some (v, entropy w')
            /\ stdin w' = stdin w /\ stdout w' = stdout w)
  /\ (forall r, 0 <= r < 6 ->
        acceptedTo 6 r (Z.to_nat 0x100000000)
        = Z.to_nat ((0xFFFFFFFF - 0xFFFFFFFF mod 6) / 6)).
Proof. apply (secureRandomInt_unbiased 6). lia. Defined.

Example secureRandomInt_retry :
  secureRandomIntFrom 6 [xff; xff; xff; xfe; x00; x00; x00; x0b; x2a]
  = Some (Num 5, [x2a]).
Proof. reflexivity. Qed.

Example acceptedTo_small : acceptedTo 6 5 24 = 4%nat.
Proof. reflexivity. Qed.

(** ** HMAC-SHA3-256 on known digests *)

Example sha3_256_empty :
  hex (map byteOfZ (SHA3.sha3_256 []))
  = "a7ffc6f8bf1ed76651c14756a061d662f580ff4de43b49fa82d80a4b80f8434a"%string.
Proof. vm_compute. reflexivity. Qed.

Example sha3_256_abc :
  hex (map byteOfZ (SHA3.sha3_256 (map byteValue (bytesOfString "abc"))))
  = "3a985da74fe225b2045c172d6bd390bd855f086e3e9d525b46bfe24511431532"%string.
Proof. vm_compute. reflexivity. Qed.

Example hmacSha3_hi_there :
  hmacSha3 (repeat x0b 20) "Hi There"
  = "ba85192310dffa96e2a3a40e69774351140bb7185e1202cdcc917589f95e16bb"%string.
Proof. vm_compute. reflexivity. Qed.

(** ** The exchange *)

Lemma validUserNum_iff (max : Z) (userNum : number) :
  validUserNum max userNum = true
  <-> exists u, userNum = Num u /\ 0 <= u < max.
Proof.
  unfold validUserNum. destruct userNum as [| u]; cbn [isNaN negb andb ge lt].
  - split; [discriminate | intros (u & E & _); discriminate].
  - rewrite andb_true_iff, Z.leb_le, Z.ltb_lt. split.
    + intros H. exists u. split; [reflexivity | lia].
    + intros (u' & E & H). injection E as <-. lia.
Qed.

Lemma refusals_app (max : Z) (a b : list string) :
  refusals max (a ++ b) = refusals max a ++ refusals max b.
Proof. unfold refusals. apply flat_map_app. Qed.

(** What the loop of lines 54-59 has read when it leaves: lines that
    were refused, then the line that was accepted. *)
Lemma readUserNumFrom_inv (max : Z) (lines : list string) (out : list event)
      (userNum : number) (rest : list string) (out' : list event) :
  readUserNumFrom max lines out = Some (userNum, rest, out') ->
  exists refused line,
    lines = refused ++ line :: rest
    /\ Forall (fun l => validUserNum max (parseInt (trim l)) = false) refused
    /\ userNum = parseInt (trim line)
    /\ validUserNum max userNum = true
    /\ out' = out ++ refusals max refused ++ [Question max].
Proof.
  revert out. induction lines as [| input lines IH]; intros out H;
    cbn [readUserNumFrom] in H; [discriminate |].
  destruct (validUserNum max (parseInt (trim input))) eqn:Hv.
  - injection H as <- <- <-. exists [], input.
    split; [reflexivity |]. split; [constructor |].
    split; [reflexivity |]. split; [exact Hv | reflexivity].
  - destruct (IH _ H) as (refused & line & -> & Href & Hu & Hok & ->).
    exists (input :: refused), line.
    split; [reflexivity |]. split; [constructor; assumption |].
    split; [exact Hu |]. split; [exact Hok |].
    cbn [refusals flat_map app]. rewrite <- !app_assoc. reflexivity.
Qed.

Lemma readUserNumFrom_complete (max : Z) (refused : list string)
      (line : string) (rest : list string) (out : list event) :
  Forall (fun l => validUserNum max (parseInt (trim l)) = false) refused ->
  validUserNum max (parseInt (trim line)) = true ->
  readUserNumFrom max (refused ++ line :: rest) out
  = Some (parseInt (trim line), rest,
          out ++ refusals max refused ++ [Question max]).
Proof.
  intros Href Hok. revert out.
  induction Href as [| input refused Hin Href IH]; intros out;
    cbn [app readUserNumFrom].
  - now rewrite Hok.
  - rewrite Hin, IH. cbn [refusals flat_map app].
    rewrite <- !app_assoc. reflexivity.
Qed.

Lemma secureRandomIntFrom_app (max : Z) (bytes : list byte) (v : number)
      (rest more : list byte) :
  secureRandomIntFrom max bytes = Some (v, rest) ->
  secureRandomIntFrom max (bytes ++ more) = Some (v, rest ++ more).
Proof.
  intros H.
  destruct (secureRandomIntFrom_inv _ _ _ _ H)
    as (rej & b0 & b1 & b2 & b3 & -> & Hlen & Hrej & Hok & ->).
  rewrite <- app_assoc. cbn [app].
  now apply secureRandomIntFrom_complete.
Qed.

Lemma secureRandomIntFrom_exact (max : Z) (bytes : list byte) (v : number)
      (rest : list byte) :
  secureRandomIntFrom max bytes = Some (v, rest) ->
  exists sampled,
    bytes = sampled ++ rest /\ secureRandomIntFrom max sampled = Some (v, []).
Proof.
  intros H.
  destruct (secureRandomIntFrom_inv _ _ _ _ H)
    as (rej & b0 & b1 & b2 & b3 & -> & Hlen & Hrej & Hok & ->).
  exists (rej ++ [b0; b1; b2; b3]). split.
  - rewrite <- app_assoc. reflexivity.
  - now apply secureRandomIntFrom_complete.
Qed.

(** The sampler returns an integer of [0, max) when [max] is positive. *)
Lemma secureRandomIntFrom_range (max : Z) (bytes : list byte) (v : number)
      (rest : list byte) :
  0 < max ->
  secureRandomIntFrom max bytes = Some (v, rest) ->
  exists secret, v = Num secret /\ 0 <= secret < max.
Proof.
  intros Hm H.
  destruct (secureRandomIntFrom_inv _ _ _ _ H)
    as (rej & b0 & b1 & b2 & b3 & _ & _ & _ & _ & ->).
  pose proof (readUInt32BE_nonneg b0 b1 b2 b3).
  rewrite rem_nonneg_pos by lia.
  eexists. split; [reflexivity |]. apply Z.mod_pos_bound. lia.
Qed.

Lemma randomBytes_inv (n : nat) (w : World) (bs : list byte) (w' : World) :
  randomBytes n w = Some (bs, w') ->
  List.length bs = n /\ entropy w = bs ++ entropy w'
  /\ stdin w' = stdin w /\ stdout w' = stdout w.
Proof.
  unfold randomBytes.
  destruct (Nat.ltb_spec (List.length (entropy w)) n) as [| Hn]; [discriminate |].
  intros H. injection H as <- <-. cbn.
  rewrite length_firstn, firstn_skipn. repeat split. lia.
Qed.

Lemma randomBytes_complete (bs more : list byte) (ins : list string)
      (out : list event) :
  randomBytes (List.length bs) (mkWorld (bs ++ more) ins out)
  = Some (bs, mkWorld more ins out).
Proof.
  unfold randomBytes. cbn [entropy stdin stdout].
  destruct (Nat.ltb_spec (List.length (bs ++ more)) (List.length bs)) as [H | _].
  - rewrite length_app in H. lia.
  - rewrite firstn_app, Nat.sub_diag, firstn_all, skipn_app, Nat.sub_diag,
      skipn_all. cbn [firstn skipn]. now rewrite app_nil_r.
Qed.

Lemma log_eq (e : event) (w : World) :
  log e w = Some (tt, mkWorld (entropy w) (stdin w) (stdout w ++ [e])).
Proof. reflexivity. Qed.

(** [fairRandom] returns exactly when the world holds a complete
    exchange at its front, and then returns its result. *)
Lemma fairRandom_runs (max : Z) (label : string) (w : World) (r : number)
      (w' : World) :
  fairRandom max label w = Some (r, w')
  <-> exists x, runs max label w x w' /\ r = Num (xResult max x).
Proof.
  split.
  - unfold fairRandom, bind.
    destruct (randomBytes 32 w) as [[key w1] |] eqn:Hk; [| discriminate].
    destruct (secureRandomInt max w1) as [[compNum w2] |] eqn:Hs; [| discriminate].
    rewrite log_eq.
    match goal with
    | |- context [readUserNum max ?w3] =>
        destruct (readUserNum max w3) as [[userNum w4] |] eqn:Hu; [| discriminate]
    end.
    rewrite !log_eq. unfold ret. cbn [entropy stdin stdout].
    intros H. injection H as <- <-.
    apply randomBytes_inv in Hk. destruct Hk as (Hlen & He1 & Hi1 & Ho1).
    unfold secureRandomInt in Hs.
    destruct (secureRandomIntFrom max (entropy w1)) as [[v rest] |] eqn:Hsf;
      [| discriminate].
    injection Hs as -> <-.
    unfold readUserNum in Hu. cbn [entropy stdin stdout] in Hu.
    destruct (readUserNumFrom max (stdin w1) _) as [[[u rest'] out'] |] eqn:Hrf;
      [| discriminate].
    injection Hu as -> <-. cbn [entropy stdin stdout].
    apply readUserNumFrom_inv in Hrf.
    destruct Hrf as (refused & line & Hin & Href & Hline & Hvalid & ->).
    destruct (proj1 (validUserNum_iff _ _) Hvalid) as (un & -> & Hun).
    destruct (secureRandomIntFrom_range max _ _ _ ltac:(lia) Hsf)
      as (secret & -> & Hsecret).
    destruct (secureRandomIntFrom_exact _ _ _ _ Hsf) as (sampled & Hsam & Hex).
    exists (mkExchange key sampled secret refused line un).
    split; [| apply combine_mod; lia].
    unfold runs, completes, transcript, xDigest, xResult.
    cbn [xKey xSampled xSecret xRefused xLine xUserNum entropy stdin stdout].
    split.
    { split; [exact Hlen |]. split; [exact Hex |]. split; [exact Hsecret |].
      split; [exact Href |]. split; [now symmetry | exact Hun]. }
    split; [now rewrite He1, Hsam |].
    split; [now rewrite <- Hi1, Hin |].
    rewrite combine_mod by lia. rewrite Ho1.
    rewrite <- !app_assoc. reflexivity.
  - intros (x & (Hc & He & Hi & Ho) & ->).
    destruct Hc as (Hlen & Hex & Hsecret & Href & Hline & Hun).
    destruct x as [key sampled secret refused line un].
    cbn [xKey xSampled xSecret xRefused xLine xUserNum] in *.
    destruct w as [e i o], w' as [e' i' o']. cbn [entropy stdin stdout] in *.
    subst e i o'.
    assert (Hvalid : validUserNum max (parseInt (trim line)) = true).
    { apply validUserNum_iff. exists un. split; [exact Hline | exact Hun]. }
    unfold fairRandom, bind.
    rewrite <- Hlen at 1. rewrite randomBytes_complete.
    unfold secureRandomInt. cbn [entropy stdin stdout].
    rewrite (secureRandomIntFrom_app _ _ _ _ e' Hex). cbn [app].
    rewrite log_eq. unfold readUserNum. cbn [entropy stdin stdout].
    rewrite (readUserNumFrom_complete _ _ _ _ _ Href Hvalid).
    rewrite !log_eq. unfold ret. cbn [entropy stdin stdout].
    rewrite Hline, combine_mod by lia.
    unfold transcript, xDigest, xResult.
    cbn [xKey xSampled xSecret xRefused xLine xUserNum].
    rewrite <- !app_assoc. reflexivity.
Qed.



Example fairRandom_demo :
  match fairRandom 3 "Computer die choice" demoWorld with
  | Some (r, w') =>
      r = Num 1
      /\ stdin w' = ["0"%string]
      /\ List.length (entropy w') = 36%nat
      /\ map render (stdout w')
         = [(newline ++ "[Computer die choice] Computer committed number HMAC: "
               ++ "12f1aaedc2ed26181b8f5eddb5f0a5950a8f9c6100f17d32bc000be14d0b54af");
            "Enter your number (0-2): ";
            "Invalid input. Enter an integer between 0 and 2.";
            "Enter your number (0-2): ";
            "Computer secret number: 1";
            "Computer secret key: 000102030405060708090a0b0c0d0e0f101112131415161718191a1b1c1d1e1f";
            "You entered: 0";
            "Result (computer + user) mod 3 = 1" ++ newline]%string
  | None => False
  end.
Proof. vm_compute. repeat split. Qed.

(** ** The decimal text of an integer *)

Lemma parseDigits_acc (d : Decimal.uint) (p : positive) :
  parseDigits (Z.pos p) (list_ascii_of_string (NilEmpty.string_of_uint d))
  = Z.pos (Pos.of_uint_acc d p).
Proof.
  revert p.
  induction d as [| d IH | d IH | d IH | d IH | d IH | d IH | d IH | d IH
                  | d IH | d IH]; intros p;
    cbn [NilEmpty.string_of_uint list_ascii_of_string parseDigits Pos.of_uint_acc];
    [reflexivity | ..];
    match goal with
    | |- context [digitValue ?c] =>
        let v := eval vm_compute in (digitValue c) in
        change (digitValue c) with v
    end;
    cbv iota beta; rewrite <- IH; f_equal; lia.
Qed.

Lemma parseDigits_uint (d : Decimal.uint) :
  parseDigits 0 (list_ascii_of_string (NilEmpty.string_of_uint d))
  = Z.of_N (Pos.of_uint d).
Proof.
  induction d as [| d IH | d IH | d IH | d IH | d IH | d IH | d IH | d IH
                  | d IH | d IH];
    cbn [NilEmpty.string_of_uint list_ascii_of_string parseDigits Pos.of_uint];
    [reflexivity | exact IH | ..];
    match goal with
    | |- context [digitValue ?c] =>
        let v := eval vm_compute in (digitValue c) in
        change (digitValue c) with v
    end;
    cbv iota beta; apply (parseDigits_acc d).
Qed.

Lemma parseInt_unsigned (d : Decimal.uint) :
  d <> Decimal.Nil ->
  parseInt (NilEmpty.string_of_uint d) = Num (Z.of_N (Pos.of_uint d)).
Proof.
  intros Hd. rewrite <- parseDigits_uint.
  destruct d; [congruence | ..]; unfold parseInt;
    cbn [NilEmpty.string_of_uint list_ascii_of_string];
    match goal with
    | |- context [trimStart (?c :: ?s)] =>
        change (trimStart (c :: s)) with (c :: s);
        change (startsWithDigit (c :: s)) with true
    end;
    cbv iota beta; now rewrite Z.mul_1_l.
Qed.

(** The text of a non-negative integer is its decimal digits: read back,
    it gives the integer. *)
Lemma parseInt_toString (z : Z) : 0 <= z -> parseInt (toString (Num z)) = Num z.
Proof.
  intros Hz. destruct z as [| p | p]; [reflexivity | | lia].
  cbn [toString Z.to_int NilZero.string_of_int].
  pose proof (DecimalPos.Unsigned.to_uint_nonnil p) as Hn.
  unfold NilZero.string_of_uint.
  destruct (Pos.to_uint p) eqn:E; [congruence | ..];
    rewrite <- E in *; rewrite parseInt_unsigned by exact Hn;
    now rewrite DecimalPos.Unsigned.of_to.
Qed.

(** ** The commitment *)

Lemma digestsIn_app (a b : list event) :
  digestsIn (a ++ b) = digestsIn a ++ digestsIn b.
Proof. unfold digestsIn. apply flat_map_app. Qed.

Lemma digestsIn_refusals (max : Z) (refused : list string) :
  digestsIn (refusals max refused) = [].
Proof. induction refused as [| l refused IH]; [reflexivity | exact IH]. Qed.

Lemma digestsIn_transcript (max : Z) (label : string) (x : exchange) :
  digestsIn (transcript max label x) = [xDigest x].
Proof.
  unfold transcript. change (Committed label (xDigest x) :: ?l)
    with ([Committed label (xDigest x)] ++ l).
  rewrite !digestsIn_app, digestsIn_refusals. reflexivity.
Qed.

(** C4: the digest disclosed by an exchange is the HMAC-SHA3-256, under
    the 32-byte key, of the decimal text of the secret; the secret and
    the key revealed at the end of the same exchange therefore give the
    disclosed digest again.  One digest is disclosed per exchange. *)
Theorem commitment_binding (max : Z) (label : string) (w : World) (r : number)
        (w' : World) :
  fairRandom max label w = Some (r, w') ->
  exists key secret userNum digest asked,
    stdout w'
    = stdout w
        ++ Committed label digest
        :: asked
        ++ [SecretNumber (Num secret); SecretKey key;
            YouEntered (Num userNum); Result max r]
    /\ digestsIn (stdout w') = digestsIn (stdout w) ++ [digest]
    /\ key = firstn 32 (entropy w)
    /\ List.length key = 32%nat
    /\ 0 <= secret < max
    /\ digest
       = hex (hmac_sha3_256 key (bytesOfString (toString (Num secret))))
    /\ hmacSha3 key (toString (Num secret)) = digest
    /\ parseInt (toString (Num secret)) = Num secret.
Proof.
  intros H. apply fairRandom_runs in H.
  destruct H as (x & ((Hlen & _ & Hs & _ & _ & _) & He & _ & Ho) & ->).
  exists (xKey x), (xSecret x), (xUserNum x), (xDigest x),
    (refusals max (xRefused x) ++ [Question max]).
  split; [| split; [| split; [| split; [| split; [| split; [| split]]]]]].
  - rewrite Ho. unfold transcript. rewrite <- !app_assoc. reflexivity.
  - rewrite Ho, digestsIn_app, digestsIn_transcript. reflexivity.
  - rewrite He, firstn_app, Hlen, Nat.sub_diag, firstn_O, app_nil_r.
    symmetry. apply firstn_all2. lia.
  - exact Hlen.
  - exact Hs.
  - reflexivity.
  - reflexivity.
  - apply parseInt_toString. lia.
Qed.

Lemma commitment_binding_witness :
  exists r w' key secret userNum digest asked,
    fairRandom 3 "Computer die choice" demoWorld = Some (r, w')
    /\ stdout w'
       = stdout demoWorld
           ++ Committed "Computer die choice" digest
           :: asked
           ++ [SecretNumber (Num secret); SecretKey key;
               YouEntered (Num userNum); Result 3 r]
    /\ digestsIn (stdout w') = digestsIn (stdout demoWorld) ++ [digest]
    /\ key = firstn 32 (entropy demoWorld)
    /\ List.length key = 32%nat
    /\ 0 <= secret < 3
    /\ digest
       = hex (hmac_sha3_256 key (bytesOfString (toString (Num secret))))
    /\ hmacSha3 key (toString (Num secret)) = digest
    /\ parseInt (toString (Num secret)) = Num secret.
Proof.
  destruct (fairRandom 3 "Computer die choice" demoWorld) as [[r w'] |] eqn:E;
    [| vm_compute in E; discriminate].
  destruct (commitment_binding 3 "Computer die choice" demoWorld r w' E)
    as (key & secret & userNum & digest & asked & H).
  exists r, w', key, secret, userNum, digest, asked.
  split; [reflexivity | exact H].
Defined.

(** The message is the text of the number, not the number as a byte. *)
Example message_is_decimal_text :
  bytesOfString (toString (Num 10)) = [x31; x30]
  /\ hmacSha3 (firstn 32 (entropy demoWorld)) (toString (Num 10))
     <> hex (hmac_sha3_256 (firstn 32 (entropy demoWorld)) [x0a]).
Proof. split; [reflexivity |]. vm_compute. discriminate. Qed.

(** ** The choice of the computer's die *)

Lemma runs_reads_a_line (max : Z) (label : string) (w : World) (x : exchange)
      (w' : World) :
  runs max label w x w' ->
  (List.length (stdin w') < List.length (stdin w))%nat.
Proof.
  intros (_ & _ & Hi & _). rewrite Hi, length_app. cbn [List.length]. lia.
Qed.

Lemma reroll_done (fuel : nat) (max : Z) (user c : number) (w : World) :
  strictEq c user = false -> reroll fuel max user c w = Some (c, w).
Proof. intros H. destruct fuel; cbn [reroll]; now rewrite H. Qed.

(** What the loop of lines 174-176 has done when it leaves. *)
Lemma reroll_inv (fuel : nat) (max : Z) (user c0 : number) (w : World)
      (c : number) (w' : World) :
  reroll fuel max user c0 w = Some (c, w') ->
  (strictEq c0 user = false /\ c = c0 /\ w' = w)
  \/ (strictEq c0 user = true
      /\ exists xs,
           rerolls max user "Computer die choice (re-roll to avoid tie)"
                   w xs c w').
Proof.
  revert c0 w. induction fuel as [| fuel IH]; intros c0 w H;
    cbn [reroll] in H; destruct (strictEq c0 user) eqn:Hc0;
    try discriminate;
    try (left; injection H as <- <-; repeat split; reflexivity).
  right. split; [reflexivity |].
  unfold bind in H.
  destruct (fairRandom max _ w) as [[c1 w1] |] eqn:Hf; [| discriminate].
  apply fairRandom_runs in Hf. destruct Hf as (x & Hruns & ->).
  destruct (IH _ _ H) as [(Hne & -> & ->) | (Heq & xs & Hxs)].
  - exists [x]. now constructor.
  - exists (x :: xs). econstructor; eassumption.
Qed.

(** The loop needs no more turns than there are lines left. *)
Lemma reroll_complete (max : Z) (user : number) (label : string) (w : World)
      (xs : list exchange) (c : number) (w' : World) :
  rerolls max user label w xs c w' ->
  label = "Computer die choice (re-roll to avoid tie)"%string ->
  forall fuel c0,
    (List.length (stdin w) <= fuel)%nat ->
    strictEq c0 user = true ->
    reroll fuel max user c0 w = Some (c, w').
Proof.
  induction 1 as [label w x w' Hruns Hne | label w x w1 xs c w' Hruns Heq Hxs IH];
    intros -> fuel c0 Hfuel Hc0;
    pose proof (runs_reads_a_line _ _ _ _ _ Hruns) as Hlt;
    (destruct fuel as [| fuel]; [lia |]);
    cbn [reroll]; rewrite Hc0; unfold bind;
    rewrite (proj2 (fairRandom_runs _ _ _ _ _) (ex_intro _ x (conj Hruns eq_refl))).
  - now apply reroll_done.
  - apply IH; [reflexivity | lia | exact Heq].
Qed.

Lemma chooseComputerDie_rerolls (max : Z) (user : number) (w : World)
      (c : number) (w' : World) :
  chooseComputerDie max user w = Some (c, w')
  <-> exists xs, rerolls max user "Computer die choice" w xs c w'.
Proof.
  unfold chooseComputerDie, bind. split.
  - destruct (fairRandom max _ w) as [[c1 w1] |] eqn:Hf; [| discriminate].
    apply fairRandom_runs in Hf. destruct Hf as (x & Hruns & ->).
    intros H. destruct (reroll_inv _ _ _ _ _ _ _ H)
      as [(Hne & -> & ->) | (Heq & xs & Hxs)].
    + exists [x]. now constructor.
    + exists (x :: xs). econstructor; eassumption.
  - intros (xs & H).
    inversion H as [l0 w0 x w0' Hruns Hne | l0 w0 x w1 xs' c' w0' Hruns Heq Hxs];
      subst;
      rewrite (proj2 (fairRandom_runs _ _ _ _ _) (ex_intro _ x (conj Hruns eq_refl))).
    + now apply reroll_done.
    + eapply reroll_complete; [exact Hxs | reflexivity | lia | exact Heq].
Qed.

(** Every exchange of the sequence takes its own bytes and its own lines,
    in order, and writes its own transcript. *)
Lemma rerolls_uses (max : Z) (user : number) (label : string) (w : World)
      (xs : list exchange) (c : number) (w' : World) :
  rerolls max user label w xs c w' ->
  Forall (completes max) xs
  /\ entropy w = bytesUsed xs ++ entropy w'
  /\ stdin w = linesUsed xs ++ stdin w'
  /\ stdout w' = stdout w ++ transcripts max label xs
  /\ digestsIn (stdout w') = digestsIn (stdout w) ++ map xDigest xs
  /\ exists ci, c = Num ci /\ 0 <= ci < max /\ strictEq c user = false.
Proof.
  induction 1 as [label w x w' Hruns Hne | label w x w1 xs c w' Hruns Heq Hxs IH].
  - destruct Hruns as (Hc & He & Hi & Ho).
    unfold bytesUsed, linesUsed, transcripts. cbn [flat_map map].
    rewrite !app_nil_r, <- !app_assoc.
    split; [now constructor |]. split; [exact He |]. split; [exact Hi |].
    split; [exact Ho |]. split.
    + rewrite Ho, digestsIn_app, digestsIn_transcript. reflexivity.
    + exists (xResult max x). split; [reflexivity |]. split; [| exact Hne].
      apply Z.mod_pos_bound. destruct Hc as (_ & _ & Hs & _). lia.
  - destruct Hruns as (Hc & He & Hi & Ho).
    destruct IH as (Hall & He' & Hi' & Ho' & Hd' & Hci).
    unfold bytesUsed, linesUsed in *. cbn [flat_map map].
    split; [now constructor |].
    split; [rewrite He, He', <- !app_assoc; reflexivity |].
    split; [rewrite Hi, Hi', <- !app_assoc; reflexivity |].
    split; [| split; [| exact Hci]].
    + rewrite Ho', Ho. unfold transcripts. cbn [flat_map].
      destruct xs as [| y ys]; [inversion Hxs |].
      cbn [flat_map]. rewrite <- !app_assoc. reflexivity.
    + rewrite Hd', Ho, digestsIn_app, digestsIn_transcript, <- app_assoc.
      reflexivity.
Qed.



(** In the world with two collisions three exchanges are run: the first
    two give the user's die 1, the third gives 2 after a refused line. *)
Example chooseComputerDie_two_collisions :
  match chooseComputerDie 3 (Num 1) rerollWorld with
  | Some (c, w') =>
      c = Num 2 /\ entropy w' = [] /\ stdin w' = []
      /\ List.length (digestsIn (stdout w')) = 3%nat
      /\ map render (skipn 12 (stdout w'))
         = [(newline
               ++ "[Computer die choice (re-roll to avoid tie)] Computer committed number HMAC: "
               ++ "37dc3007500eae14cd968baf498354b6b414c0b5b62bde458ce3e05935e80a48");
            "Enter your number (0-2): ";
            "Invalid input. Enter an integer between 0 and 2.";
            "Enter your number (0-2): ";
            "Computer secret number: 2";
            "Computer secret key: 404142434445464748494a4b4c4d4e4f505152535455565758595a5b5c5d5e5f";
            "You entered: 0";
            "Result (computer + user) mod 3 = 2" ++ newline]%string
  | None => False
  end.
Proof. vm_compute. repeat split. Qed.

(** On the example world the first exchange gives the user's die 1 and
    the second gives 2; two digests are disclosed. *)
Example chooseComputerDie_demo :
  match chooseComputerDie 3 (Num 1) demoWorld with
  | Some (c, w') =>
      c = Num 2 /\ entropy w' = [] /\ stdin w' = []
      /\ digestsIn (stdout w')
         = ["12f1aaedc2ed26181b8f5eddb5f0a5950a8f9c6100f17d32bc000be14d0b54af";
            "a65360b8ac43d3ec4134d047b0533af5e54089aa985e675f7a161d8a69b6c9e1"]%string
  | None => False
  end.
Proof. vm_compute. repeat split. Qed.

(** ** Start-up *)

Lemma parseDice_spec (args : list string) (dice : list (list Z)) :
  (forallb validDie args = true
   /\ parseDice args dice
      = Ready (dice ++ map (fun arg => integers (parseFaces arg)) args))
  \/ (forallb validDie args = false
      /\ exists log, parseDice args dice = Exit 1 log).
Proof.
  revert dice. induction args as [| arg args IH]; intros dice.
  - left. cbn. now rewrite app_nil_r.
  - cbn [parseDice forallb map]. unfold validDie at 1 3.
    destruct (Z.of_nat (List.length (parseFaces arg)) =? DICE_FACES);
      destruct (existsb isNaN (parseFaces arg)); cbn [negb orb andb];
      try (right; split; [reflexivity | eexists; reflexivity]).
    destruct (IH (dice ++ [integers (parseFaces arg)])) as [(Hv & Hp) | (Hv & Hp)].
    + left. split; [exact Hv |]. rewrite Hp, <- app_assoc. reflexivity.
    + right. split; [exact Hv | exact Hp].
Qed.

(** The script goes on exactly when there are at least three arguments
    and each gives six numbers other than [NaN]; otherwise it leaves with
    code 1 before [main] is called. *)
Lemma start_spec (args : list string) :
  ((3 <= List.length args)%nat /\ forallb validDie args = true
   /\ start args = Ready (map (fun arg => integers (parseFaces arg)) args))
  \/ (((List.length args < 3)%nat \/ forallb validDie args = false)
      /\ exists log, start args = Exit 1 log).
Proof.
  unfold start. destruct (Z.ltb_spec (Z.of_nat (List.length args)) 3) as [Hlt | Hge].
  - right. split; [left; lia | eexists; reflexivity].
  - destruct (parseDice_spec args []) as [(Hv & Hp) | (Hv & Hp)].
    + left. split; [lia |]. split; [exact Hv | exact Hp].
    + right. split; [now right | exact Hp].
Qed.

Lemma trimStart_not_space (c : ascii) (s : list ascii) :
  isWhiteSpace c = false -> trimStart (c :: s) = c :: s.
Proof. intros H. cbn [trimStart]. now rewrite H. Qed.

Lemma digit_not_space (c : ascii) (d : Z) :
  digitValue c = Some d -> isWhiteSpace c = false.
Proof.
  destruct c as [[] [] [] [] [] [] [] []]; vm_compute; congruence.
Qed.

(** A token that is an integer literal is never refused, whatever its
    sign and its size. *)
Lemma integer_literal_accepted (token : string) :
  isIntegerLiteral token = true -> isNaN (parseInt (trim token)) = false.
Proof.
  unfold isIntegerLiteral, parseInt.
  set (cs := list_ascii_of_string (trim token)).
  assert (G : forall body,
             negb (Nat.eqb (List.length body) 0)
             && forallb (fun c => match digitValue c with
                                  | Some _ => true | None => false end) body
             = true ->
             startsWithDigit body = true
             /\ exists c r d, body = c :: r /\ digitValue c = Some d).
  { intros [| c r]; cbn; [discriminate |].
    destruct (digitValue c) as [d |] eqn:E; [| discriminate].
    intros _. split; [reflexivity |]. now exists c, r, d. }
  destruct cs as [| c r]; [cbn; discriminate |].
  destruct (Ascii.eqb_spec c "-"%char) as [-> | Hm].
  - intros H. apply G in H. destruct H as (H & _).
    change (trimStart ("-"%char :: r)) with ("-"%char :: r).
    cbv iota beta. now rewrite H.
  - destruct (Ascii.eqb_spec c "+"%char) as [-> | Hp].
    + intros H. apply G in H. destruct H as (H & _).
      change (trimStart ("+"%char :: r)) with ("+"%char :: r).
      cbv iota beta. now rewrite H.
    + assert (E : match c :: r with
                  | "-"%char :: r0 => r0
                  | "+"%char :: r0 => r0
                  | _ => c :: r
                  end = c :: r).
      { destruct c as [[] [] [] [] [] [] [] []]; try reflexivity; congruence. }
      rewrite E. intros H. apply G in H.
      destruct H as (H & c' & r' & d & Hb & Hd). injection Hb as <- <-.
      rewrite (trimStart_not_space c r (digit_not_space c d Hd)).
      assert (E' : (let '(sign, body) :=
                      match c :: r with
                      | "-"%char :: r0 => (-1, r0)
                      | "+"%char :: r0 => (1, r0)
                      | _ => (1, c :: r)
                      end in
                    if startsWithDigit body
                    then Num (sign * parseDigits 0 body) else NaN)
                   = Num (1 * parseDigits 0 (c :: r))).
      { destruct c as [[] [] [] [] [] [] [] []]; try congruence;
          cbv iota beta; now rewrite H. }
      rewrite E'. reflexivity.
Qed.

Example integer_literals :
  isIntegerLiteral "-3" = true /\ isIntegerLiteral " 0 " = true
  /\ isIntegerLiteral "+12" = true
  /\ isIntegerLiteral "123456789012345678901234567890" = true
  /\ isIntegerLiteral "1.5" = false /\ isIntegerLiteral "2abc" = false
  /\ isIntegerLiteral "" = false /\ isIntegerLiteral "six" = false.
Proof. repeat split. Qed.

Example start_rejects :
  (exists log, start ["1,2,3,4,5,6"; "1,2,3,4,5,6"]%string = Exit 1 log)
  /\ (exists log, start ["1,2,3,4,5"; "1,2,3,4,5,6"; "1,2,3,4,5,6"]%string
                  = Exit 1 log)
  /\ (exists log, start ["1,2,3,4,5,6,7"; "1,2,3,4,5,6"; "1,2,3,4,5,6"]%string
                  = Exit 1 log)
  /\ (exists log, start ["1,2,x,4,5,6"; "1,2,3,4,5,6"; "1,2,3,4,5,6"]%string
                  = Exit 1 log)
  /\ start ["-1,0,3,4,5,9007199254740991"; "1,2,3,4,5,6"; "1,2,3,4,5,6"]%string
     = Ready [[-1; 0; 3; 4; 5; 9007199254740991]; [1; 2; 3; 4; 5; 6];
              [1; 2; 3; 4; 5; 6]].
Proof. repeat split; eexists; reflexivity. Qed.

(** C6, at the input where the script and the claim part: the first die
    holds the token 1.5, which is not an integer, and the script goes on
    with the face 1 in its place; a token followed by letters passes in
    the same way. *)
Theorem start_accepts_non_integer_token :
  isIntegerLiteral "1.5" = false
  /\ isIntegerLiteral "4x" = false
  /\ start ["1.5,2,3,4x,5,6"; "1,1,6,6,8,8"; "3,3,5,5,7,7"]%string
     = Ready [[1; 2; 3; 4; 5; 6]; [1; 1; 6; 6; 8; 8]; [3; 3; 5; 5; 7; 7]].
Proof. repeat split. Qed.

(** ** The counterparty's value *)

(** A line whose value is [NaN] or outside [0, max) is refused and the
    question is asked again; the random bytes are not touched and no new
    digest is disclosed, so the pending commitment stays as it is; the
    value that leaves the loop is an integer of [0, max). *)
Lemma readUserNum_retries (max : Z) (w : World) (userNum : number) (w' : World) :
  readUserNum max w = Some (userNum, w') ->
  entropy w' = entropy w
  /\ digestsIn (stdout w') = digestsIn (stdout w)
  /\ exists refused line u,
       stdin w = refused ++ line :: stdin w'
       /\ Forall (fun l => validUserNum max (parseInt (trim l)) = false) refused
       /\ stdout w' = stdout w ++ refusals max refused ++ [Question max]
       /\ parseInt (trim line) = Num u
       /\ userNum = Num u
       /\ 0 <= u < max.
Proof.
  unfold readUserNum.
  destruct (readUserNumFrom max (stdin w) (stdout w)) as [[[u rest] out] |] eqn:H;
    [| discriminate].
  intros E. injection E as <- <-. cbn [entropy stdin stdout].
  apply readUserNumFrom_inv in H.
  destruct H as (refused & line & Hin & Href & Hu & Hvalid & ->).
  split; [reflexivity |]. split.
  - rewrite !digestsIn_app, digestsIn_refusals. cbn. now rewrite app_nil_r.
  - destruct (proj1 (validUserNum_iff _ _) Hvalid) as (v & Hv & Hr).
    exists refused, line, v. subst u.
    split; [exact Hin |]. split; [exact Href |]. split; [reflexivity |].
    split; [exact Hv |]. split; [exact Hv | exact Hr].
Qed.

Example refused_lines :
  validUserNum 3 (parseInt (trim "three")) = false
  /\ validUserNum 3 (parseInt (trim "")) = false
  /\ validUserNum 3 (parseInt (trim "3")) = false
  /\ validUserNum 3 (parseInt (trim "-1")) = false
  /\ validUserNum 3 (parseInt (trim " 2 ")) = true.
Proof. repeat split. Qed.

(** C7, at the input where the script and the claim part: the line 1.5
    is not an integer, yet it is not refused: no complaint is written, no
    second question is asked, and the exchange goes on with the value
    1. *)
Theorem fairRandom_accepts_non_integer_line :
  isIntegerLiteral "1.5" = false
  /\ validUserNum 3 (parseInt (trim "1.5")) = true
  /\ readUserNumFrom 3 ["1.5"; "2"]%string [] = Some (Num 1, ["2"%string], [Question 3])
  /\ match fairRandom 3 "Computer die choice"
             (mkWorld (entropy demoWorld) ["1.5"; "2"]%string []) with
     | Some (r, w') =>
         r = Num 2 /\ stdin w' = ["2"%string]
         /\ map render (skipn 1 (stdout w'))
            = ["Enter your number (0-2): ";
               "Computer secret number: 1";
               "Computer secret key: 000102030405060708090a0b0c0d0e0f101112131415161718191a1b1c1d1e1f";
               "You entered: 1";
               "Result (computer + user) mod 3 = 2" ++ newline]%string
     | None => False
     end.
Proof. vm_compute. repeat split. Qed.

(** ** The bound [max] *)

Lemma fairRandom_needs_positive_max (max : Z) (label : string) (w : World) :
  max <= 0 -> fairRandom max label w = None.
Proof.
  intros Hm. destruct (fairRandom max label w) as [[r w'] |] eqn:H; [| reflexivity].
  apply fairRandom_runs in H.
  destruct H as (x & ((_ & _ & _ & _ & _ & Hu) & _) & _). lia.
Qed.

Lemma secureRandomIntFrom_zero (bytes : list byte) :
  secureRandomIntFrom 0 bytes = None.
Proof.
  induction bytes as [l Hl | b0 b1 b2 b3 rest IH] using bytes_ind4.
  - now apply secureRandomIntFrom_short.
  - cbn [secureRandomIntFrom]. now rewrite accepts_zero.
Qed.

Lemma accepts_one (num : Z) : accepts 1 num = (num <? 0xFFFFFFFF).
Proof. rewrite accepts_spec by lia. reflexivity. Qed.

(** C8, the counterexample: with [max = 1] an exchange is started and
    completed: a digest is disclosed and the result 0 is returned. *)
Lemma fairRandom_max_one_completes :
  exists w',
    fairRandom 1 "First move" (mkWorld (entropy demoWorld) ["0"]%string [])
    = Some (Num 0, w')
    /\ digestsIn (stdout w')
       = ["55a4eb56b278d72e3dcb2b77c20b0a0295c21ff0fe05fc033ceecf51fd23d13d"%string]
    /\ In (SecretNumber (Num 0)) (stdout w')
    /\ In (Result 1 (Num 0)) (stdout w').
Proof.
  eexists. split; [vm_compute; reflexivity |].
  cbn [stdout]. split; [reflexivity |].
  split; [do 2 right; left; reflexivity | do 5 right; left; reflexivity].
Qed.

(** C8, as the script has it: [fairRandom] and [secureRandomInt] do not
    look at [max] before they start.  With [max = 1] every draw but
    0xFFFFFFFF is accepted, the secret is 0, the only line accepted reads
    0 and the result is 0.  With [max <= 0] no exchange is ever
    completed: for 0 the sampler refuses every draw, below 0 every line
    is refused. *)
Theorem fairRandom_unguarded_max :
  (forall label key b0 b1 b2 b3 more line lines out,
     List.length key = 32%nat ->
     readUInt32BE b0 b1 b2 b3 <> 0xFFFFFFFF ->
     parseInt (trim line) = Num 0 ->
     exists w',
       fairRandom 1 label
         (mkWorld (key ++ b0 :: b1 :: b2 :: b3 :: more) (line :: lines) out)
       = Some (Num 0, w')
       /\ digestsIn (stdout w')
          = digestsIn out ++ [hmacSha3 key (toString (Num 0))])
  /\ (forall label w r w',
        fairRandom 1 label w = Some (r, w') ->
        r = Num 0
        /\ exists x, runs 1 label w x w' /\ xSecret x = 0 /\ xUserNum x = 0)
  /\ (forall max label w, max <= 0 -> fairRandom max label w = None)
  /\ (forall bytes, secureRandomIntFrom 0 bytes = None)
  /\ (forall max lines out, max <= 0 -> readUserNumFrom max lines out = None).
Proof.
  split; [| split; [| split; [| split]]].
  - intros label key b0 b1 b2 b3 more line lines out Hlen Hnum Hline.
    pose proof (readUInt32BE_range b0 b1 b2 b3) as Hr.
    set (x := mkExchange key [b0; b1; b2; b3] 0 [] line 0).
    set (w' := mkWorld more lines (out ++ transcript 1 label x)).
    exists w'. split.
    + apply fairRandom_runs. exists x. split; [| reflexivity].
      unfold runs, completes.
      cbn [xKey xSampled xSecret xRefused xLine xUserNum entropy stdin stdout w' x app].
      split; [| repeat split].
      split; [exact Hlen |]. split.
      { cbn [secureRandomIntFrom]. rewrite accepts_one.
        destruct (Z.ltb_spec (readUInt32BE b0 b1 b2 b3) 0xFFFFFFFF); [| lia].
        rewrite rem_nonneg_pos by lia. now rewrite Z.mod_1_r. }
      split; [lia |]. split; [constructor |]. split; [exact Hline | lia].
    + unfold w'. cbn [stdout]. rewrite digestsIn_app, digestsIn_transcript.
      reflexivity.
  - intros label w r w' H. apply fairRandom_runs in H.
    destruct H as (x & Hruns & ->).
    pose proof Hruns as ((_ & _ & Hs & _ & _ & Hu) & _).
    split; [unfold xResult; now rewrite Z.mod_1_r |].
    exists x. split; [exact Hruns | lia].
  - apply fairRandom_needs_positive_max.
  - apply secureRandomIntFrom_zero.
  - intros max lines out Hm.
    destruct (readUserNumFrom max lines out) as [[[u rest] out'] |] eqn:H;
      [| reflexivity].
    apply readUserNumFrom_inv in H.
    destruct H as (_ & _ & _ & _ & _ & Hvalid & _).
    apply validUserNum_iff in Hvalid. destruct Hvalid as (v & _ & Hv). lia.
Qed.

(** ** The two loops, turn by turn *)

(** One turn of [while (true)] in [secureRandomInt]: four bytes are
    drawn; the draw is returned reduced, or the loop starts again. *)
Lemma secureRandomInt_turn (max : Z) (w : World) :
  secureRandomInt max w
  = (buf <- randomBytes 4 ;;
     match buf with
     | [b0; b1; b2; b3] =>
         let num := readUInt32BE b0 b1 b2 b3 in
         if accepts max num then ret (rem (Num num) (Num max))
         else secureRandomInt max
     | _ => fun _ => None
     end) w.
Proof.
  destruct w as [e i o]. unfold secureRandomInt, bind, randomBytes, ret.
  cbn [entropy stdin stdout].
  destruct e as [| b0 [| b1 [| b2 [| b3 rest]]]]; try reflexivity.
  change (List.length (b0 :: b1 :: b2 :: b3 :: rest) <? 4)%nat with false.
  cbn [firstn skipn secureRandomIntFrom entropy stdin stdout].
  destruct (accepts max (readUInt32BE b0 b1 b2 b3)); reflexivity.
Qed.

(** One turn of the loop of lines 54-59: the question is asked; the line
    is taken if its value is valid, otherwise the complaint is written
    and the loop starts again. *)
Lemma readUserNum_turn (max : Z) (w : World) :
  readUserNum max w
  = (input <- ask (Question max) ;;
     let userNum := parseInt (trim input) in
     if validUserNum max userNum then ret userNum
     else log (InvalidInput max) ;;; readUserNum max) w.
Proof.
  destruct w as [e i o]. unfold readUserNum, bind, ask, ret, log.
  cbn [entropy stdin stdout].
  destruct i as [| input rest]; [reflexivity |].
  cbn [readUserNumFrom].
  destruct (validUserNum max (parseInt (trim input))); [reflexivity |].
  cbn [entropy stdin stdout]. rewrite <- app_assoc. reflexivity.
Qed.

(** ** A whole round *)

Example play_round :
  match play [[2; 2; 4; 4; 9; 9]; [1; 1; 6; 6; 8; 8]; [3; 3; 5; 5; 7; 7]]
             roundWorld with
  | Some (_, w') =>
      entropy w' = [] /\ stdin w' = []
      /\ In (ComputerChose (Num 2)) (stdout w')
      /\ List.length (digestsIn (stdout w')) = 4%nat
      /\ map render (skipn 31 (stdout w'))
         = ["You rolled face: 6"; "Computer rolled face: 7"; "Computer wins!"]%string
  | None => False
  end.
Proof.
  vm_compute. split; [reflexivity |]. split; [reflexivity |].
  split; [| split; reflexivity].
  do 18 right. left. reflexivity.
Qed.

(** ** The other copy of the script *)

Section OtherCopyProperties.

Variable randomInt : Z -> IO number.

(** What Node documents of [crypto.randomInt(max)]: an integer of
    [0, max); the terminal is not touched. *)
Hypothesis randomInt_range :
  forall max w v w1,
    0 < max -> randomInt max w = Some (v, w1) ->
    (exists s, v = Num s /\ 0 <= s < max)
    /\ stdin w1 = stdin w /\ stdout w1 = stdout w.

Lemma fairRandomCopy_result (max : Z) (label : string) (w : World)
      (r : number) (w' : World) :
  fairRandomCopy randomInt max label w = Some (r, w') ->
  exists secret userNum,
    0 <= secret < max /\ 0 <= userNum < max
    /\ r = Num ((secret + userNum) mod max)
    /\ 0 <= (secret + userNum) mod max < max
    /\ (List.length (stdin w') < List.length (stdin w))%nat.
Proof.
  unfold fairRandomCopy, bind.
  destruct (randomBytes 32 w) as [[key w1] |] eqn:Hk; [| discriminate].
  destruct (randomInt max w1) as [[compNum w2] |] eqn:Hs; [| discriminate].
  rewrite log_eq.
  match goal with
  | |- context [readUserNum max ?w3] =>
      destruct (readUserNum max w3) as [[userNum w4] |] eqn:Hu; [| discriminate]
  end.
  rewrite !log_eq. unfold ret. cbn [entropy stdin stdout].
  intros H. injection H as <- <-. cbn [stdin].
  apply readUserNum_retries in Hu. cbn [entropy stdin stdout] in Hu.
  destruct Hu as (_ & _ & refused & line & u & Hin & _ & _ & _ & -> & Hu).
  apply randomBytes_inv in Hk. destruct Hk as (_ & _ & Hi1 & _).
  destruct (randomInt_range max w1 compNum w2 ltac:(lia) Hs)
    as ((s & -> & Hsr) & Hi2 & _).
  exists s, u. split; [exact Hsr |]. split; [exact Hu |].
  split; [apply combine_mod; lia |].
  split; [apply Z.mod_pos_bound; lia |].
  rewrite <- Hi1, <- Hi2, Hin, length_app. cbn [List.length]. lia.
Qed.

Lemma doWhile_result (fuel : nat) (diceLength : Z) (userDie : number)
      (w : World) (compDie : number) (w' : World) :
  doWhile randomInt fuel diceLength userDie w = Some (compDie, w') ->
  exists c, compDie = Num c /\ 0 <= c < diceLength /\ userDie <> Num c.
Proof.
  revert w. induction fuel as [| fuel IH]; intros w; cbn [doWhile];
    [discriminate |].
  unfold bind.
  destruct (fairRandomCopy randomInt diceLength _ w) as [[c1 w1] |] eqn:Hf;
    [| discriminate].
  destruct (strictEq c1 userDie) eqn:Hc; [apply IH |].
  unfold ret. intros H. injection H as <- <-.
  apply fairRandomCopy_result in Hf.
  destruct Hf as (s & u & _ & _ & -> & Hr & _).
  eexists. split; [reflexivity |]. split; [exact Hr |].
  intros ->. cbn [strictEq] in Hc. rewrite Z.eqb_refl in Hc. discriminate.
Qed.

Lemma doWhile_no_line (fuel : nat) (diceLength : Z) (userDie : number)
      (w : World) :
  stdin w = [] -> doWhile randomInt fuel diceLength userDie w = None.
Proof.
  intros Hw. destruct fuel as [| fuel]; cbn [doWhile]; [reflexivity |].
  unfold bind.
  destruct (fairRandomCopy randomInt diceLength _ w) as [[c1 w1] |] eqn:Hf;
    [| reflexivity].
  apply fairRandomCopy_result in Hf.
  destruct Hf as (_ & _ & _ & _ & _ & _ & Hl).
  rewrite Hw in Hl. cbn in Hl. lia.
Qed.

(** The loop needs no more turns than there are lines left. *)
Lemma doWhile_fuel (fuel : nat) (diceLength : Z) (userDie : number) (w : World) :
  (List.length (stdin w) <= fuel)%nat ->
  doWhile randomInt fuel diceLength userDie w
  = chooseComputerDieCopy randomInt diceLength userDie w.
Proof.
  unfold chooseComputerDieCopy.
  enough (G : forall fuel1 fuel2 w0,
             (List.length (stdin w0) <= fuel1)%nat ->
             (List.length (stdin w0) <= fuel2)%nat ->
             doWhile randomInt fuel1 diceLength userDie w0
             = doWhile randomInt fuel2 diceLength userDie w0)
    by (intros H; apply G; lia).
  induction fuel1 as [| fuel1 IH]; intros fuel2 w0 H1 H2.
  - rewrite !doWhile_no_line; [reflexivity | |];
      destruct (stdin w0); cbn in H1; (reflexivity || lia).
  - destruct fuel2 as [| fuel2].
    + rewrite !doWhile_no_line; [reflexivity | |];
        destruct (stdin w0); cbn in H2; (reflexivity || lia).
    + cbn [doWhile]. unfold bind.
      destruct (fairRandomCopy randomInt diceLength _ w0) as [[c1 w1] |] eqn:Hf;
        [| reflexivity].
      apply fairRandomCopy_result in Hf.
      destruct Hf as (_ & _ & _ & _ & _ & _ & Hl).
      destruct (strictEq c1 userDie); [| reflexivity].
      apply IH; lia.
Qed.

End OtherCopyProperties.

(** The sampler of the script meets what is assumed of
    [crypto.randomInt]. *)
Lemma secureRandomInt_meets_randomInt (max : Z) (w : World) (v : number)
      (w1 : World) :
  0 < max -> secureRandomInt max w = Some (v, w1) ->
  (exists s, v = Num s /\ 0 <= s < max)
  /\ stdin w1 = stdin w /\ stdout w1 = stdout w.
Proof.
  intros Hm. unfold secureRandomInt.
  destruct (secureRandomIntFrom max (entropy w)) as [[v' rest] |] eqn:H;
    [| discriminate].
  intros E. injection E as <- <-. cbn [stdin stdout].
  split; [| split; reflexivity].
  now apply (secureRandomIntFrom_range max (entropy w) v' rest).
Qed.

(** With that sampler the other copy computes the same exchange. *)
Lemma fairRandomCopy_same (max : Z) (label : string) (w : World) :
  fairRandomCopy secureRandomInt max label w = fairRandom max label w.
Proof. reflexivity. Qed.

(** * Further properties *)

(** ** The dice the script goes on with *)

Lemma integers_no_NaN (faces : list number) :
  existsb isNaN faces = false -> map Num (integers faces) = faces.
Proof.
  induction faces as [| x faces IH]; [reflexivity |].
  cbn [existsb]. destruct x as [| z]; cbn [isNaN orb]; [discriminate |].
  intros H. unfold integers. cbn [flat_map app map]. f_equal. now apply IH.
Qed.

Lemma safe_integers (l : list Z) :
  Forall safeNumber (map Num l) -> Forall safeInteger l.
Proof.
  induction l as [| z l IH]; intros H; [constructor |].
  inversion H; subst. constructor; [assumption | now apply IH].
Qed.

(** X1: for arguments whose pieces spell integers no larger than
    [Number.MAX_SAFE_INTEGER] in size, where [parseInt] gives exactly
    the integer spelt: when the script goes on, the array [dice] has one
    die for each argument, at least three of them, each of exactly six
    integers of that size, and these integers are the values [parseInt]
    gave for the six pieces of the argument, none of them [NaN]. *)
Theorem start_ready_shape (args : list string) (dice : list (list Z)) :
  Forall (fun arg => Forall safeNumber (parseFaces arg)) args ->
  start args = Ready dice ->
  (3 <= List.length dice)%nat
  /\ List.length dice = List.length args
  /\ Forall (fun d => List.length d = 6%nat) dice
  /\ Forall (Forall safeInteger) dice
  /\ map (map Num) dice = map parseFaces args.
Proof.
  intros Hsafe H. destruct (start_spec args) as [(Hn & Hv & E) | (_ & log & E)];
    [| congruence].
  rewrite E in H. injection H as <-.
  rewrite length_map. split; [exact Hn |]. split; [reflexivity |].
  rewrite forallb_forall in Hv. rewrite Forall_forall in Hsafe.
  split; [| split].
  - apply Forall_forall. intros d Hd. apply in_map_iff in Hd.
    destruct Hd as (arg & <- & Harg). specialize (Hv arg Harg).
    unfold validDie in Hv. apply andb_true_iff in Hv. destruct Hv as (Hl & Hnan).
    apply negb_true_iff in Hnan. apply Z.eqb_eq in Hl.
    rewrite <- (length_map Num), integers_no_NaN by exact Hnan.
    unfold DICE_FACES in Hl. lia.
  - apply Forall_forall. intros d Hd. apply in_map_iff in Hd.
    destruct Hd as (arg & <- & Harg). specialize (Hv arg Harg).
    unfold validDie in Hv. apply andb_true_iff in Hv. destruct Hv as (_ & Hnan).
    apply negb_true_iff in Hnan. apply safe_integers.
    rewrite integers_no_NaN by exact Hnan. now apply Hsafe.
  - rewrite map_map. apply map_ext_in. intros arg Harg.
    specialize (Hv arg Harg). unfold validDie in Hv.
    apply andb_true_iff in Hv. destruct Hv as (_ & Hnan).
    apply negb_true_iff in Hnan. now apply integers_no_NaN.
Qed.

Lemma start_ready_shape_witness :
  (3 <= List.length classicDice)%nat
  /\ List.length classicDice = List.length classicArgs
  /\ Forall (fun d => List.length d = 6%nat) classicDice
  /\ Forall (Forall safeInteger) classicDice
  /\ map (map Num) classicDice = map parseFaces classicArgs.
Proof.
  apply (start_ready_shape classicArgs classicDice); [| reflexivity].
  unfold classicArgs.
  apply Forall_cons; [| apply Forall_cons; [| apply Forall_cons; [| apply Forall_nil]]];
    match goal with
    | |- Forall safeNumber ?l =>
        let v := eval vm_compute in l in change l with v
    end;
    repeat (apply Forall_cons; [unfold safeNumber, safeInteger, MAX_SAFE_INTEGER; cbn; lia |]);
    apply Forall_nil.
Defined.

(** X2: the script leaves with code 1, before [main], exactly when there
    are fewer than three arguments or some argument fails the test of
    line 16; the number of arguments is looked at first, so two valid
    dice are refused like none; and it never leaves with another code. *)
Theorem start_exit_cases (args : list string) :
  ((exists log, start args = Exit 1 log)
   <-> (List.length args < 3)%nat \/ forallb validDie args = false)
  /\ (forall code log, start args = Exit code log -> code = 1)
  /\ ((List.length args < 3)%nat ->
      start args
      = Exit 1 ["Error: You must provide at least 3 dice.";
                "Example: node dice_game.js 2,2,4,4,9,9 6,8,1,1,8,6 7,5,3,7,5,3"]%string).
Proof.
  split; [| split].
  - destruct (start_spec args) as [(Hn & Hv & E) | (Hc & log & E)].
    + split.
      * intros (log & E'). congruence.
      * intros [Hl | Hf]; [lia | congruence].
    + split; [intros _; exact Hc | intros _; now exists log].
  - intros code log H.
    destruct (start_spec args) as [(_ & _ & E) | (_ & log' & E)]; congruence.
  - intros Hl. unfold start.
    destruct (Z.ltb_spec (Z.of_nat (List.length args)) 3); [reflexivity | lia].
Qed.

(** ** The sampler at its edges *)

(** X3: the sampler drops few draws: every 32-bit draw below
    [2^32 - max] is accepted, so at most [max] values are refused; the
    draw 0xFFFFFFFF is always among them, also when [max] divides 2^32
    and no draw would have to be dropped. *)
Theorem sampler_refuses_at_most_max (max : Z) :
  1 <= max <= 0x100000000 ->
  (forall num, 0 <= num < 0x100000000 - max -> accepts max num = true)
  /\ accepts max 0xFFFFFFFF = false
  /\ (forall num, accepts max num = false -> 0x100000000 - max <= num).
Proof.
  intros Hm.
  pose proof (Z.mod_pos_bound 0xFFFFFFFF max ltac:(lia)) as Hb.
  split; [| split].
  - intros num Hn. rewrite accepts_spec by lia. apply Z.ltb_lt. lia.
  - rewrite accepts_spec by lia. apply Z.ltb_ge. lia.
  - intros num. rewrite accepts_spec by lia. rewrite Z.ltb_ge. lia.
Qed.

Lemma sampler_refuses_at_most_max_witness :
  (forall num, 0 <= num < 0x100000000 - 2 -> accepts 2 num = true)
  /\ accepts 2 0xFFFFFFFF = false
  /\ (forall num, accepts 2 num = false -> 0x100000000 - 2 <= num).
Proof. apply (sampler_refuses_at_most_max 2). lia. Defined.

Example sampler_drops_a_full_bucket :
  accepts 2 0xFFFFFFFE = false /\ accepts 2 0xFFFFFFFD = true.
Proof. split; reflexivity. Qed.

(** X4: the sampler returns exactly when the bytes to come hold an
    accepted draw after a run of refused ones; it then returns that draw
    reduced modulo [max] and leaves the bytes after it unread.  Bytes
    left over that do not make a draw of four are never read. *)
Theorem secureRandomInt_first_accepted_draw (max : Z) (bytes : list byte)
        (v : number) (rest : list byte) :
  secureRandomIntFrom max bytes = Some (v, rest)
  <-> exists refused b0 b1 b2 b3,
        bytes = refused ++ b0 :: b1 :: b2 :: b3 :: rest
        /\ List.length refused = (4 * List.length (draws refused))%nat
        /\ Forall (fun num => accepts max num = false) (draws refused)
        /\ accepts max (readUInt32BE b0 b1 b2 b3) = true
        /\ v = rem (Num (readUInt32BE b0 b1 b2 b3)) (Num max).
Proof.
  split; [apply secureRandomIntFrom_inv |].
  intros (refused & b0 & b1 & b2 & b3 & -> & Hlen & Href & Hok & ->).
  now apply secureRandomIntFrom_complete.
Qed.

Lemma rem_opp_max (x max : Z) : rem (Num x) (Num (- max)) = rem (Num x) (Num max).
Proof.
  unfold rem. destruct (Z.eqb_spec max 0) as [-> | Hn]; [reflexivity |].
  destruct (Z.eqb_spec (- max) 0) as [E | _]; [lia |].
  now rewrite Z.rem_opp_r.
Qed.

(** X5: the sampler does not see the sign of [max]: the remainder of
    line 37 and the one of line 38 take the sign of the draw, so with
    [-max] every draw is accepted or refused as with [max] and the same
    value is returned from the same bytes.  A negative [max] therefore
    gives a secret of [0, -max) whenever a positive one of that size
    would. *)
Theorem sampler_ignores_sign_of_max (max : Z) :
  (forall num, accepts (- max) num = accepts max num)
  /\ (forall bytes,
        secureRandomIntFrom (- max) bytes = secureRandomIntFrom max bytes)
  /\ (forall w, secureRandomInt (- max) w = secureRandomInt max w).
Proof.
  assert (Ha : forall num, accepts (- max) num = accepts max num).
  { intros num. unfold accepts. now rewrite rem_opp_max. }
  assert (Hb : forall bytes,
             secureRandomIntFrom (- max) bytes = secureRandomIntFrom max bytes).
  { intros bytes.
    induction bytes as [l Hl | b0 b1 b2 b3 rest IH] using bytes_ind4.
    - now rewrite !secureRandomIntFrom_short.
    - cbn [secureRandomIntFrom]. now rewrite Ha, rem_opp_max, IH. }
  split; [exact Ha |]. split; [exact Hb |].
  intros w. unfold secureRandomInt. now rewrite Hb.
Qed.

Example sampler_minus_three :
  secureRandomIntFrom (-3) [xff; xff; xff; xff; x00; x00; x00; x05; x07]
  = Some (Num 2, [x07])
  /\ secureRandomIntFrom 3 [xff; xff; xff; xff; x00; x00; x00; x05; x07]
     = Some (Num 2, [x07]).
Proof. split; reflexivity. Qed.

(** ** The two functions that compare dice *)

Lemma countGt_Lt_Eq (a : Z) (d2 : list Z) :
  countGt a d2 + countLt a d2 + countEq a d2 = Z.of_nat (List.length d2)
  /\ 0 <= countGt a d2 /\ 0 <= countLt a d2 /\ 0 <= countEq a d2.
Proof.
  induction d2 as [| b d2 IH]; cbn [countGt countLt countEq List.length];
    [lia |].
  destruct (Z.gtb_spec a b), (Z.ltb_spec a b), (Z.eqb_spec a b); lia.
Qed.

Lemma wins_losses_ties (d1 d2 : list Z) :
  wins d1 d2 + losses d1 d2 + ties d1 d2
  = Z.of_nat (List.length d1) * Z.of_nat (List.length d2)
  /\ 0 <= wins d1 d2 /\ 0 <= losses d1 d2 /\ 0 <= ties d1 d2.
Proof.
  induction d1 as [| a d1 IH]; cbn [wins losses ties List.length]; [lia |].
  pose proof (countGt_Lt_Eq a d2). nia.
Qed.

Lemma ties_none (d1 d2 : list Z) :
  (forall a, In a d1 -> ~ In a d2) -> ties d1 d2 = 0.
Proof.
  induction d1 as [| a d1 IH]; intros H; cbn [ties]; [reflexivity |].
  rewrite IH by (intros b Hb; apply H; now right).
  assert (G : forall l, ~ In a l -> countEq a l = 0).
  { induction l as [| b l IHl]; intros Hn; cbn [countEq]; [reflexivity |].
    destruct (Z.eqb_spec a b) as [-> | _]; [exfalso; apply Hn; now left |].
    rewrite IHl; [reflexivity | intros Hl; apply Hn; now right]. }
  rewrite G; [reflexivity | apply H; now left].
Qed.

(** X6: [compareDice] agrees with the table of [showProbabilities]: it
    gives 1 exactly when the count behind the cell (i, j) exceeds the
    count behind the cell (j, i), -1 when it is below, and 0 when the two
    counts are equal. *)
Theorem compareDice_follows_winCount (d1 d2 : list Z) :
  compareDice d1 d2 = Z.sgn (winCount d1 d2 - winCount d2 d1)
  /\ (compareDice d1 d2 = 1 <-> winCount d2 d1 < winCount d1 d2)
  /\ (compareDice d1 d2 = -1 <-> winCount d1 d2 < winCount d2 d1)
  /\ (compareDice d1 d2 = 0 <-> winCount d1 d2 = winCount d2 d1).
Proof.
  rewrite compareDice_counts, !winCount_wins, <- (wins_losses d2 d1).
  split; [reflexivity |]. lia.
Qed.

(** X7: the counts behind two opposite cells of the table never exceed
    the number of pairs of faces together: what is missing is the number
    of pairs of equal faces, so the two counts add up to all the pairs
    exactly when the dice have no face in common. *)
Theorem winCount_opposite_cells (d1 d2 : list Z) :
  0 <= winCount d1 d2
  /\ winCount d1 d2 + winCount d2 d1 + ties d1 d2
     = Z.of_nat (List.length d1) * Z.of_nat (List.length d2)
  /\ winCount d1 d2 + winCount d2 d1
     <= Z.of_nat (List.length d1) * Z.of_nat (List.length d2)
  /\ ((forall a, In a d1 -> ~ In a d2) ->
      winCount d1 d2 + winCount d2 d1
      = Z.of_nat (List.length d1) * Z.of_nat (List.length d2)).
Proof.
  rewrite !winCount_wins, (wins_losses d2 d1).
  pose proof (wins_losses_ties d1 d2) as (E & Hw & Hl & Ht).
  split; [exact Hw |]. split; [lia |]. split; [lia |].
  intros H. rewrite (ties_none d1 d2 H) in E. lia.
Qed.

(** X8: a die compared with itself ties, whatever its faces, and the
    result of [compareDice] is always -1, 0 or 1. *)
Theorem compareDice_self_and_range (d1 d2 : list Z) :
  compareDice d1 d1 = 0
  /\ (compareDice d1 d2 = -1 \/ compareDice d1 d2 = 0 \/ compareDice d1 d2 = 1)
  /\ compareDice [] d2 = 0 /\ compareDice d1 [] = 0.
Proof.
  rewrite !compareDice_counts, <- (wins_losses d1 d1).
  split; [rewrite Z.sub_diag; reflexivity |]. split; [lia |].
  split; [reflexivity |].
  rewrite wins_nil_r, <- (wins_losses [] d1). reflexivity.
Qed.

(** ** The exchange and what the user types *)

Lemma fairRandom_range (max : Z) (label : string) (w : World) (r : number)
      (w' : World) :
  fairRandom max label w = Some (r, w') ->
  exists v, r = Num v /\ 0 <= v < max.
Proof.
  intros H. apply fairRandom_runs in H.
  destruct H as (x & ((_ & _ & Hs & _ & _ & Hu) & _) & ->).
  exists (xResult max x). split; [reflexivity |].
  apply Z.mod_pos_bound. lia.
Qed.

Lemma firstn_skipn_32 (key1 key2 t1 t2 : list byte) :
  List.length key1 = 32%nat -> List.length key2 = 32%nat ->
  key1 ++ t1 = key2 ++ t2 -> key1 = key2 /\ t1 = t2.
Proof.
  intros H1 H2 E.
  assert (K : firstn 32 (key1 ++ t1) = firstn 32 (key2 ++ t2)) by now rewrite E.
  rewrite !firstn_app, H1, H2, Nat.sub_diag, !firstn_O, !app_nil_r in K.
  rewrite !firstn_all2 in K by lia. subst key2.
  split; [reflexivity |]. now apply app_inv_head in E.
Qed.

(** X9: the commitment is fixed before the user is asked: two exchanges
    that start from the same random bytes disclose the same digest,
    reveal the same secret and the same key and leave the same bytes
    unread, whatever is typed in each.  Each result is the secret plus
    the value of the line that exchange accepted, the first line typed
    that is not refused, modulo [max]; so the two results differ only
    through the values typed, and are equal when these are. *)
Theorem commitment_fixed_before_input (max : Z) (label : string)
        (e : list byte) (lines1 lines2 : list string) (out : list event)
        (r1 r2 : number) (w1 w2 : World) :
  fairRandom max label (mkWorld e lines1 out) = Some (r1, w1) ->
  fairRandom max label (mkWorld e lines2 out) = Some (r2, w2) ->
  entropy w1 = entropy w2
  /\ digestsIn (stdout w1) = digestsIn (stdout w2)
  /\ exists key secret refused1 line1 u1 refused2 line2 u2,
       In (SecretKey key) (stdout w1) /\ In (SecretKey key) (stdout w2)
       /\ In (SecretNumber (Num secret)) (stdout w1)
       /\ In (SecretNumber (Num secret)) (stdout w2)
       /\ lines1 = refused1 ++ line1 :: stdin w1
       /\ Forall (fun l => validUserNum max (parseInt (trim l)) = false) refused1
       /\ parseInt (trim line1) = Num u1
       /\ In (YouEntered (Num u1)) (stdout w1)
       /\ lines2 = refused2 ++ line2 :: stdin w2
       /\ Forall (fun l => validUserNum max (parseInt (trim l)) = false) refused2
       /\ parseInt (trim line2) = Num u2
       /\ In (YouEntered (Num u2)) (stdout w2)
       /\ r1 = Num ((secret + u1) mod max)
       /\ r2 = Num ((secret + u2) mod max)
       /\ (u1 = u2 -> r1 = r2).
Proof.
  intros H1 H2. apply fairRandom_runs in H1, H2.
  destruct H1 as (x1 & ((Hk1 & Hs1 & _ & Hr1 & Hl1 & _) & He1 & Hi1 & Ho1) & ->).
  destruct H2 as (x2 & ((Hk2 & Hs2 & _ & Hr2 & Hl2 & _) & He2 & Hi2 & Ho2) & ->).
  cbn [entropy stdin stdout] in *.
  destruct (firstn_skipn_32 _ _ _ _ Hk1 Hk2 (eq_trans (eq_sym He1) He2))
    as (Ek & Et).
  apply (secureRandomIntFrom_app _ _ _ _ (entropy w1)) in Hs1.
  apply (secureRandomIntFrom_app _ _ _ _ (entropy w2)) in Hs2.
  rewrite Et, Hs2 in Hs1. cbn [app] in Hs1. injection Hs1 as Es Ee.
  assert (Ed : xDigest x1 = xDigest x2) by (unfold xDigest; now rewrite Ek, Es).
  assert (Tail : forall x,
             In (SecretNumber (Num (xSecret x))) (out ++ transcript max label x)
             /\ In (SecretKey (xKey x)) (out ++ transcript max label x)
             /\ In (YouEntered (Num (xUserNum x))) (out ++ transcript max label x)).
  { intros x. unfold transcript.
    split; [| split]; apply in_or_app; right; right; apply in_or_app; right.
    - right. left. reflexivity.
    - do 2 right. left. reflexivity.
    - do 3 right. left. reflexivity. }
  destruct (Tail x1) as (Tn1 & Tk1 & Tu1). destruct (Tail x2) as (Tn2 & Tk2 & Tu2).
  split; [now symmetry |]. split.
  - rewrite Ho1, Ho2, !digestsIn_app, !digestsIn_transcript. now rewrite Ed.
  - exists (xKey x1), (xSecret x1), (xRefused x1), (xLine x1), (xUserNum x1),
      (xRefused x2), (xLine x2), (xUserNum x2).
    rewrite Ho1, Ho2.
    split; [exact Tk1 |]. split; [rewrite Ek; exact Tk2 |].
    split; [exact Tn1 |]. split; [rewrite <- Es; exact Tn2 |].
    split; [exact Hi1 |]. split; [exact Hr1 |]. split; [exact Hl1 |].
    split; [exact Tu1 |].
    split; [exact Hi2 |]. split; [exact Hr2 |]. split; [exact Hl2 |].
    split; [exact Tu2 |].
    split; [reflexivity |]. unfold xResult. rewrite Es.
    split; [reflexivity |]. intros ->. reflexivity.
Qed.

Lemma commitment_fixed_before_input_witness :
  exists r1 r2 w1 w2,
    fairRandom 3 "Computer die choice"
      (mkWorld (entropy demoWorld) ["0"]%string []) = Some (r1, w1)
    /\ fairRandom 3 "Computer die choice"
         (mkWorld (entropy demoWorld) ["9"; "2"]%string []) = Some (r2, w2)
    /\ entropy w1 = entropy w2
    /\ digestsIn (stdout w1) = digestsIn (stdout w2)
    /\ exists key secret refused1 line1 u1 refused2 line2 u2,
         In (SecretKey key) (stdout w1) /\ In (SecretKey key) (stdout w2)
         /\ In (SecretNumber (Num secret)) (stdout w1)
         /\ In (SecretNumber (Num secret)) (stdout w2)
         /\ ["0"]%string = refused1 ++ line1 :: stdin w1
         /\ Forall (fun l => validUserNum 3 (parseInt (trim l)) = false) refused1
         /\ parseInt (trim line1) = Num u1
         /\ In (YouEntered (Num u1)) (stdout w1)
         /\ ["9"; "2"]%string = refused2 ++ line2 :: stdin w2
         /\ Forall (fun l => validUserNum 3 (parseInt (trim l)) = false) refused2
         /\ parseInt (trim line2) = Num u2
         /\ In (YouEntered (Num u2)) (stdout w2)
         /\ r1 = Num ((secret + u1) mod 3)
         /\ r2 = Num ((secret + u2) mod 3)
         /\ (u1 = u2 -> r1 = r2).
Proof.
  destruct (fairRandom 3 "Computer die choice"
              (mkWorld (entropy demoWorld) ["0"]%string []))
    as [[r1 w1] |] eqn:E1; [| vm_compute in E1; discriminate].
  destruct (fairRandom 3 "Computer die choice"
              (mkWorld (entropy demoWorld) ["9"; "2"]%string []))
    as [[r2 w2] |] eqn:E2; [| vm_compute in E2; discriminate].
  exists r1, r2, w1, w2. split; [reflexivity |]. split; [reflexivity |].
  exact (commitment_fixed_before_input _ _ _ _ _ _ _ _ _ _ E1 E2).
Defined.

Lemma refusals_length (max : Z) (refused : list string) :
  List.length (refusals max refused) = (2 * List.length refused)%nat.
Proof.
  induction refused as [| l refused IH]; [reflexivity |].
  change (refusals max (l :: refused))
    with ([Question max; InvalidInput max] ++ refusals max refused).
  rewrite length_app, IH. cbn [List.length]. lia.
Qed.

Lemma transcript_length (max : Z) (label : string) (x : exchange) :
  List.length (transcript max label x)
  = (6 + 2 * List.length (xRefused x))%nat.
Proof.
  unfold transcript. cbn [List.length].
  rewrite length_app, refusals_length. cbn [List.length]. lia.
Qed.

(** X10: lines that are refused cost nothing but output: put in front of
    the lines of an exchange, they leave its result, its digest, the
    bytes it reads and the lines it leaves as they were, and add one
    complaint each. *)
Theorem refused_lines_change_nothing (max : Z) (label : string)
        (e : list byte) (refused lines : list string) (out : list event)
        (r : number) (w0 : World) :
  Forall (fun l => validUserNum max (parseInt (trim l)) = false) refused ->
  fairRandom max label (mkWorld e lines out) = Some (r, w0) ->
  exists w1,
    fairRandom max label (mkWorld e (refused ++ lines) out) = Some (r, w1)
    /\ entropy w1 = entropy w0
    /\ stdin w1 = stdin w0
    /\ digestsIn (stdout w1) = digestsIn (stdout w0)
    /\ List.length (stdout w1)
       = (List.length (stdout w0) + 2 * List.length refused)%nat.
Proof.
  intros Href H. apply fairRandom_runs in H.
  destruct H as (x & ((Hk & Hs & Hsr & Hr & Hl & Hu) & He & Hi & Ho) & ->).
  cbn [entropy stdin stdout] in *.
  set (x' := mkExchange (xKey x) (xSampled x) (xSecret x)
                        (refused ++ xRefused x) (xLine x) (xUserNum x)).
  exists (mkWorld (entropy w0) (stdin w0) (out ++ transcript max label x')).
  cbn [entropy stdin stdout]. split; [| split; [| split; [| split]]];
    try reflexivity.
  - apply fairRandom_runs. exists x'. split; [| reflexivity].
    unfold runs, completes.
    cbn [xKey xSampled xSecret xRefused xLine xUserNum entropy stdin stdout x'].
    split; [| split; [exact He | split; [| reflexivity]]].
    + split; [exact Hk |]. split; [exact Hs |]. split; [exact Hsr |].
      split; [now apply Forall_app |]. split; [exact Hl | exact Hu].
    + rewrite Hi, <- app_assoc. reflexivity.
  - rewrite Ho, !digestsIn_app, !digestsIn_transcript. reflexivity.
  - rewrite Ho, !length_app, !transcript_length. unfold x'.
    cbn [xRefused]. rewrite length_app. lia.
Qed.

Lemma refused_lines_change_nothing_witness :
  exists r w0 w1,
    fairRandom 3 "Computer die choice"
      (mkWorld (entropy demoWorld) ["2"]%string []) = Some (r, w0)
    /\ fairRandom 3 "Computer die choice"
         (mkWorld (entropy demoWorld) ["two"; "3"; "-1"; ""; "2"]%string [])
       = Some (r, w1)
    /\ entropy w1 = entropy w0
    /\ stdin w1 = stdin w0
    /\ digestsIn (stdout w1) = digestsIn (stdout w0)
    /\ List.length (stdout w1)
       = (List.length (stdout w0) + 2 * List.length ["two"; "3"; "-1"; ""]%string)%nat.
Proof.
  destruct (fairRandom 3 "Computer die choice"
              (mkWorld (entropy demoWorld) ["2"]%string []))
    as [[r w0] |] eqn:E; [| vm_compute in E; discriminate].
  destruct (refused_lines_change_nothing 3 "Computer die choice"
              (entropy demoWorld) ["two"; "3"; "-1"; ""]%string ["2"]%string
              [] r w0)
    as (w1 & H); [repeat constructor | exact E |].
  exists r, w0, w1. split; [reflexivity | exact H].
Defined.

(** ** A round *)

Lemma chooseComputerDie_range (diceLength : Z) (user : number) (w : World)
      (c : number) (w' : World) :
  chooseComputerDie diceLength user w = Some (c, w') ->
  exists ci, c = Num ci /\ 0 <= ci < diceLength /\ user <> Num ci.
Proof.
  intros H. apply chooseComputerDie_rerolls in H. destruct H as (xs & Hxs).
  destruct (rerolls_uses _ _ _ _ _ _ _ Hxs)
    as (_ & _ & _ & _ & _ & ci & -> & Hc & Hne).
  exists ci. split; [reflexivity |]. split; [exact Hc |].
  intros ->. cbn [strictEq] in Hne. rewrite Z.eqb_refl in Hne. discriminate.
Qed.

Lemma index_defined {A : Type} (arr : list A) (z : Z) :
  0 <= z < Z.of_nat (List.length arr) ->
  exists a, index arr (Num z) = Some a /\ nth_error arr (Z.to_nat z) = Some a.
Proof.
  intros Hz. unfold index. destruct (Z.ltb_spec z 0); [lia |].
  destruct (nth_error arr (Z.to_nat z)) as [a |] eqn:E.
  - now exists a.
  - apply nth_error_None in E. lia.
Qed.

Lemma app_three {A : Type} (l : list A) (a b c : A) :
  ((l ++ [a]) ++ [b]) ++ [c] = l ++ [a; b; c].
Proof. rewrite <- !app_assoc. reflexivity. Qed.

(** X11: a round never rolls a face that does not exist.  Either the
    selection is refused or cancelled, and then no random byte is used;
    or the two dice are different dice of the array, the two rolls are
    positions of [0, 6), both faces are defined, and the last line
    written tells how the two faces compare. *)
Theorem play_faces_defined (dice : list (list Z)) (w w' : World) :
  Forall (fun d => List.length d = 6%nat) dice ->
  play dice w = Some (tt, w') ->
  entropy w' = entropy w
  \/ exists u c userRoll compRoll userDie compDie userFace compFace before,
       0 <= u < Z.of_nat (List.length dice)
       /\ 0 <= c < Z.of_nat (List.length dice)
       /\ u <> c
       /\ 0 <= userRoll < 6 /\ 0 <= compRoll < 6
       /\ nth_error dice (Z.to_nat u) = Some userDie
       /\ nth_error dice (Z.to_nat c) = Some compDie
       /\ nth_error userDie (Z.to_nat userRoll) = Some userFace
       /\ nth_error compDie (Z.to_nat compRoll) = Some compFace
       /\ stdout w'
          = before
              ++ [Line ("You rolled face: " ++ toString (Num userFace))%string;
                  Line ("Computer rolled face: " ++ toString (Num compFace))%string;
                  Line (if userFace >? compFace then "You win!"%string
                        else if userFace <? compFace then "Computer wins!"%string
                        else "It's a draw!"%string)].
Proof.
  intros Hdice. unfold play, bind, logAll, ask. cbn [entropy stdin stdout].
  destruct (stdin w) as [| userDieInput rest]; [discriminate |].
  set (n := Z.of_nat (List.length dice)).
  destruct (parseInt (trim userDieInput)) as [| u] eqn:Hu.
  { cbn [isNaN orb]. rewrite log_eq. intros H. injection H as <-. now left. }
  cbn [isNaN orb lt strictEq].
  destruct (Z.ltb_spec u 0) as [Hneg | Hnn].
  { cbn [orb]. rewrite log_eq. intros H. injection H as <-. now left. }
  destruct (Z.ltb_spec n u) as [Hbig | Hle].
  { cbn [orb]. rewrite log_eq. intros H. injection H as <-. now left. }
  cbn [orb]. destruct (Z.eqb_spec u n) as [Heq | Hne].
  { rewrite log_eq. intros H. injection H as <-. now left. }
  match goal with
  | |- context [chooseComputerDie n (Num u) ?w0] =>
      destruct (chooseComputerDie n (Num u) w0) as [[compDieIndex w1] |] eqn:Hc;
        [| discriminate]
  end.
  rewrite log_eq.
  match goal with
  | |- context [fairRandom DICE_FACES "Your roll" ?w2] =>
      destruct (fairRandom DICE_FACES "Your roll" w2) as [[userRoll w3] |] eqn:Hur;
        [| discriminate]
  end.
  destruct (fairRandom DICE_FACES "Computer roll" w3) as [[compRoll w4] |] eqn:Hcr;
    [| discriminate].
  destruct (chooseComputerDie_range _ _ _ _ _ Hc) as (c & -> & Hcr' & Hcu).
  destruct (fairRandom_range _ _ _ _ _ Hur) as (ur & -> & Hurr).
  destruct (fairRandom_range _ _ _ _ _ Hcr) as (cr & -> & Hcrr).
  unfold DICE_FACES in Hurr, Hcrr.
  destruct (index_defined dice u ltac:(lia)) as (du & Hdu & Ndu).
  destruct (index_defined dice c ltac:(lia)) as (dc & Hdc & Ndc).
  assert (Ldu : List.length du = 6%nat).
  { rewrite Forall_forall in Hdice. apply Hdice. eapply nth_error_In; eassumption. }
  assert (Ldc : List.length dc = 6%nat).
  { rewrite Forall_forall in Hdice. apply Hdice. eapply nth_error_In; eassumption. }
  destruct (index_defined du ur ltac:(lia)) as (uf & Huf & Nuf).
  destruct (index_defined dc cr ltac:(lia)) as (cf & Hcf & Ncf).
  rewrite Hdu, Hdc, Huf, Hcf. rewrite !log_eq. cbn [entropy stdin stdout].
  intros H. right.
  exists u, c, ur, cr, du, dc, uf, cf.
  assert (G : exists before,
             stdout w'
             = before
                 ++ [Line ("You rolled face: " ++ faceToString (Some uf))%string;
                     Line ("Computer rolled face: " ++ faceToString (Some cf))%string;
                     Line (if uf >? cf then "You win!"%string
                           else if uf <? cf then "Computer wins!"%string
                           else "It's a draw!"%string)]).
  { destruct (uf >? cf); [| destruct (uf <? cf)];
      rewrite log_eq in H; injection H as <-; cbn [stdout];
      eexists; apply app_three. }
  destruct G as (before & G). exists before.
  split; [lia |]. split; [lia |].
  split; [intros ->; now apply Hcu |].
  split; [exact Hurr |]. split; [exact Hcrr |].
  split; [exact Ndu |]. split; [exact Ndc |].
  split; [exact Nuf |]. split; [exact Ncf | exact G].
Qed.

Lemma play_faces_defined_witness :
  exists w',
    play classicDice roundWorld = Some (tt, w')
    /\ (entropy w' = entropy roundWorld
        \/ exists u c userRoll compRoll userDie compDie userFace compFace before,
             0 <= u < Z.of_nat (List.length classicDice)
             /\ 0 <= c < Z.of_nat (List.length classicDice)
             /\ u <> c
             /\ 0 <= userRoll < 6 /\ 0 <= compRoll < 6
             /\ nth_error classicDice (Z.to_nat u) = Some userDie
             /\ nth_error classicDice (Z.to_nat c) = Some compDie
             /\ nth_error userDie (Z.to_nat userRoll) = Some userFace
             /\ nth_error compDie (Z.to_nat compRoll) = Some compFace
             /\ stdout w'
                = before
                    ++ [Line ("You rolled face: " ++ toString (Num userFace))%string;
                        Line ("Computer rolled face: " ++ toString (Num compFace))%string;
                        Line (if userFace >? compFace then "You win!"%string
                              else if userFace <? compFace then "Computer wins!"%string
                              else "It's a draw!"%string)]).
Proof.
  destruct (play classicDice roundWorld) as [[[] w'] |] eqn:E;
    [| vm_compute in E; discriminate].
  exists w'. split; [reflexivity |].
  apply (play_faces_defined classicDice roundWorld w');
    [repeat constructor | exact E].
Defined.

(** ** Printing a die and reading it back *)

Lemma uint_chars_plain (d : Decimal.uint) :
  forallb plainChar (list_ascii_of_string (NilEmpty.string_of_uint d)) = true.
Proof.
  induction d; cbn [NilEmpty.string_of_uint list_ascii_of_string forallb];
    [reflexivity | ..]; rewrite IHd; reflexivity.
Qed.

Lemma uint_starts_with_digit (d : Decimal.uint) :
  d <> Decimal.Nil ->
  startsWithDigit (list_ascii_of_string (NilEmpty.string_of_uint d)) = true.
Proof. destruct d; [congruence | ..]; reflexivity. Qed.

Lemma toString_plain (z : Z) :
  forallb plainChar (list_ascii_of_string (toString (Num z))) = true.
Proof.
  destruct z as [| p | p]; [reflexivity | |];
    cbn [toString Z.to_int NilZero.string_of_int];
    unfold NilZero.string_of_uint;
    pose proof (uint_chars_plain (Pos.to_uint p)) as H;
    destruct (Pos.to_uint p); try reflexivity;
    cbn [list_ascii_of_string forallb]; try exact H;
    rewrite H; reflexivity.
Qed.

Lemma parseInt_toString_all (z : Z) : parseInt (toString (Num z)) = Num z.
Proof.
  destruct z as [| p | p]; [reflexivity | apply parseInt_toString; lia |].
  cbn [toString Z.to_int NilZero.string_of_int].
  pose proof (DecimalPos.Unsigned.to_uint_nonnil p) as Hn.
  pose proof (DecimalPos.Unsigned.of_to p) as Hp.
  unfold NilZero.string_of_uint.
  assert (E : match Pos.to_uint p with
              | Decimal.Nil => "0"%string
              | _ => NilEmpty.string_of_uint (Pos.to_uint p)
              end = NilEmpty.string_of_uint (Pos.to_uint p))
    by (destruct (Pos.to_uint p); [congruence | ..]; reflexivity).
  rewrite E. unfold parseInt. cbn [list_ascii_of_string].
  change (trimStart ("-"%char :: ?s)) with ("-"%char :: s).
  cbv iota beta.
  rewrite uint_starts_with_digit by exact Hn.
  rewrite parseDigits_uint, Hp. reflexivity.
Qed.

Lemma trimStart_plain (s : list ascii) :
  forallb plainChar s = true -> trimStart s = s.
Proof.
  destruct s as [| c s]; [reflexivity |]. cbn [forallb trimStart].
  unfold plainChar at 1. destruct (isWhiteSpace c); [discriminate | reflexivity].
Qed.

Lemma trim_plain (s : string) :
  forallb plainChar (list_ascii_of_string s) = true ->
  trim s = s /\ trim (String " " s) = s.
Proof.
  intros H.
  assert (G : trimEnd (list_ascii_of_string s) = list_ascii_of_string s).
  { unfold trimEnd. rewrite trimStart_plain; [apply rev_involutive |].
    rewrite forallb_forall in *. intros c Hc. apply H. now apply in_rev. }
  unfold trim. cbn [list_ascii_of_string].
  change (trimStart (" "%char :: ?l)) with (trimStart l).
  rewrite trimStart_plain, G by exact H.
  split; apply string_of_list_ascii_of_string.
Qed.

Lemma split_plain (s rest : string) :
  forallb plainChar (list_ascii_of_string s) = true ->
  split "," s = [s]
  /\ split "," (s ++ String "," rest) = s :: split "," rest.
Proof.
  induction s as [| c s IH]; cbn [list_ascii_of_string forallb append split].
  - intros _. split; reflexivity.
  - intros H. apply andb_true_iff in H. destruct H as (Hc & Hs).
    unfold plainChar in Hc. apply andb_true_iff in Hc. destruct Hc as (_ & Hc).
    apply negb_true_iff in Hc. rewrite Hc.
    destruct (IH Hs) as (E1 & E2). rewrite E1, E2. split; reflexivity.
Qed.

Lemma split_nonempty (sep : ascii) (s : string) : split sep s <> [].
Proof.
  destruct s as [| c s]; cbn [split]; [discriminate |].
  destruct (Ascii.eqb c sep); [discriminate |].
  destruct (split sep s); discriminate.
Qed.

Lemma parseFaces_join (d : list Z) :
  d <> [] -> parseFaces (join d) = map Num d.
Proof.
  unfold parseFaces. induction d as [| x d IH]; [congruence |]. intros _.
  pose proof (toString_plain x) as Hx.
  destruct d as [| y d].
  - cbn [join map]. rewrite (proj1 (split_plain _ "" Hx)). cbn [map].
    rewrite (proj1 (trim_plain _ Hx)), parseInt_toString_all. reflexivity.
  - change (join (x :: y :: d))
      with (toString (Num x) ++ String "," (String " " (join (y :: d))))%string.
    rewrite (proj2 (split_plain _ _ Hx)). cbn [map].
    rewrite (proj1 (trim_plain _ Hx)), parseInt_toString_all. f_equal.
    specialize (IH ltac:(congruence)).
    (* the piece after the comma starts with the space of the separator *)
    assert (G : forall t,
               map (fun s => parseInt (trim s)) (split "," (String " " t))
               = map (fun s => parseInt (trim s)) (split "," t)).
    { intros t. cbn [split]. change (Ascii.eqb " " ",") with false. cbv iota.
      destruct (split "," t) as [| h r] eqn:E;
        [now apply split_nonempty in E |].
      reflexivity. }
    rewrite G. exact IH.
Qed.

(** X13: for faces no larger than [Number.MAX_SAFE_INTEGER] in size,
    which the script prints with all their digits: what the script
    prints for a die, [d.join(', ')], is an argument that the script
    reads back as the same die, whatever the sign of the faces; so the
    dice of such a configuration, printed and passed again, give the
    same array. *)
Theorem printed_dice_read_back (dice : list (list Z)) :
  (3 <= List.length dice)%nat ->
  Forall (fun d => List.length d = 6%nat) dice ->
  Forall (Forall safeInteger) dice ->
  Forall (fun d => parseFaces (join d) = map Num d) dice
  /\ start (map join dice) = Ready dice.
Proof.
  intros Hn Hd _.
  assert (Hp : Forall (fun d => parseFaces (join d) = map Num d) dice).
  { apply Forall_forall. intros d Hin. apply parseFaces_join.
    rewrite Forall_forall in Hd. specialize (Hd d Hin).
    intros ->. discriminate. }
  split; [exact Hp |].
  destruct (start_spec (map join dice)) as [(_ & _ & E) | ([Hl | Hf] & _)].
  - rewrite E, map_map. f_equal.
    rewrite <- (map_id dice) at 2. apply map_ext_in. intros d Hin.
    rewrite Forall_forall in Hp. rewrite (Hp d Hin).
    unfold integers. clear. induction d as [| x d IH]; [reflexivity |].
    cbn [map flat_map app]. now rewrite IH.
  - rewrite length_map in Hl. lia.
  - exfalso.
    assert (G : forallb validDie (map join dice) = true); [| congruence].
    apply forallb_forall. intros arg Harg. apply in_map_iff in Harg.
    destruct Harg as (d & <- & Hin).
    rewrite Forall_forall in Hp, Hd. unfold validDie.
    rewrite (Hp d Hin), length_map, (Hd d Hin).
    apply andb_true_iff. split; [reflexivity |]. apply negb_true_iff.
    clear. induction d as [| x d IH]; [reflexivity | exact IH].
Qed.

Lemma printed_dice_read_back_witness :
  Forall (fun d => parseFaces (join d) = map Num d)
         [[-2; 0; 4; 4; 9; 9007199254740991]; [1; 1; 6; 6; 8; 8];
          [3; 3; 5; 5; 7; 7]]
  /\ start (map join [[-2; 0; 4; 4; 9; 9007199254740991]; [1; 1; 6; 6; 8; 8];
                      [3; 3; 5; 5; 7; 7]])
     = Ready [[-2; 0; 4; 4; 9; 9007199254740991]; [1; 1; 6; 6; 8; 8];
              [3; 3; 5; 5; 7; 7]].
Proof.
  apply printed_dice_read_back; [cbn; lia | repeat constructor |].
  repeat (apply Forall_cons;
          [repeat (apply Forall_cons;
                   [unfold safeInteger, MAX_SAFE_INTEGER; cbn; lia |]);
           apply Forall_nil |]).
  apply Forall_nil.
Defined.

Example join_classic : join [2; 2; 4; 4; 9; 9] = "2, 2, 4, 4, 9, 9"%string.
Proof. reflexivity. Qed.

(** ** The table *)

Example toFixed1_examples :
  toFixed1 (percentOfCount 20) = Some "55.6"%string
  /\ toFixed1 (percentOfCount 16) = Some "44.4"%string
  /\ toFixed1 (percentOfCount 0) = Some "0.0"%string
  /\ toFixed1 (percentOfCount 36) = Some "100.0"%string
  /\ toFixed1 0.25%float = Some "0.3"%string
  /\ toFixed1 (-1.25)%float = Some "-1.3"%string
  /\ toFixed1 1e21%float = None.
Proof. vm_compute. repeat split. Qed.

Example showProbabilities_classic :
  showProbabilities classicDice
  = Some ["+------+-------+-------+-------+";
          "| Dice | 0     | 1     | 2     |";
          "+------+-------+-------+-------+";
          "| 0    | -     | 55.6% | 44.4% |";
          "| 1    | 44.4% | -     | 55.6% |";
          "| 2    | 55.6% | 44.4% | -     |";
          "+------+-------+-------+-------+"]%string.
Proof. vm_compute. reflexivity. Qed.

Lemma strlen_append (a b : string) : strlen (a ++ b) = strlen a + strlen b.
Proof.
  unfold strlen. induction a as [| c a IH]; cbn [append String.length]; lia.
Qed.

Lemma strlen_nonneg (s : string) : 0 <= strlen s.
Proof. unfold strlen. lia. Qed.

Lemma strlen_repeat (c : ascii) (k : nat) :
  strlen (String.concat "" (repeat (String c EmptyString) k)) = Z.of_nat k.
Proof.
  induction k as [| k IH]; [reflexivity |].
  cbn [repeat]. destruct k as [| k]; [reflexivity |].
  change (String.concat "" (String c "" :: repeat (String c "") (S k)))
    with (String c "" ++ "" ++ String.concat "" (repeat (String c "") (S k)))%string.
  rewrite !strlen_append, IH. unfold strlen. cbn [String.length]. lia.
Qed.

Lemma repeatString_char (c : ascii) (k : Z) :
  0 <= k ->
  exists s, repeatString (String c EmptyString) (Num k) = Some s /\ strlen s = k.
Proof.
  intros Hk. unfold repeatString. destruct (Z.ltb_spec k 0); [lia |].
  eexists. split; [reflexivity |]. rewrite strlen_repeat. lia.
Qed.

(** [pad] raises only when the text is longer than the width. *)
Lemma pad_fits (str : string) (w : Z) :
  strlen str <= w -> exists p, pad str (Num w) = Some p /\ strlen p = w.
Proof.
  intros H. unfold pad. cbn [sub].
  destruct (repeatString_char " " (w - strlen str) ltac:(lia)) as (s & -> & Hs).
  eexists. split; [reflexivity |]. rewrite strlen_append. lia.
Qed.

Lemma pad_raises (str : string) (w : Z) :
  w < strlen str -> pad str (Num w) = None.
Proof.
  intros H. unfold pad, repeatString. cbn [sub].
  destruct (Z.ltb_spec (w - strlen str) 0); [reflexivity | lia].
Qed.

Lemma joinWith_cons (sep x : string) (l : list string) :
  l <> [] -> joinWith sep (x :: l) = (x ++ sep ++ joinWith sep l)%string.
Proof. destruct l; [congruence | reflexivity]. Qed.

(** The length of the parts joined by a one-character separator and set
    between two more characters, when each part of column [w] has length
    [w + 2]. *)
Lemma framed_width (sep : ascii) (parts : list string) (widths : list Z) :
  map strlen parts = map (fun w => w + 2) widths ->
  parts <> [] ->
  strlen (String sep (joinWith (String sep "") parts ++ String sep ""))
  = rowWidth widths.
Proof.
  revert widths. induction parts as [| p parts IH]; intros widths E Hne;
    [congruence |].
  destruct widths as [| w widths]; [discriminate |].
  cbn [map] in E. injection E as Ep E.
  destruct parts as [| q parts].
  - destruct widths; [| discriminate].
    cbn [joinWith rowWidth].
    change (String sep (p ++ String sep ""))
      with (String sep "" ++ (p ++ String sep ""))%string.
    rewrite !strlen_append, Ep. unfold strlen. cbn [String.length]. lia.
  - specialize (IH widths E ltac:(congruence)).
    rewrite joinWith_cons by congruence. cbn [rowWidth]. rewrite <- IH.
    change (String sep ?s) with (String sep "" ++ s)%string.
    rewrite !strlen_append, Ep. unfold strlen. cbn [String.length]. lia.
Qed.

Lemma sequence_length {A : Type} (l : list (option A)) (ys : list A) :
  sequence l = Some ys -> List.length ys = List.length l.
Proof.
  revert ys. induction l as [| [a |] l IH]; intros ys; cbn [sequence];
    [intros H; injection H as <-; reflexivity | | discriminate].
  destruct (sequence l) as [r |]; [| discriminate].
  intros H. injection H as <-. cbn [List.length]. f_equal. now apply IH.
Qed.

(** A row whose cells fit the widths is printed, at the full width. *)
Lemma renderCells_fits (cells : list string) (widths : list Z) :
  Forall2 (fun c w => strlen c <= w) cells widths ->
  cells <> [] ->
  exists s, renderCells cells widths = Some s /\ strlen s = rowWidth widths.
Proof.
  intros Hfit Hne. unfold renderCells, mapi.
  assert (G : forall k all,
             (forall i, nth_error all (k + i) = nth_error widths i) ->
             exists padded,
               sequence
                 (mapiFrom (fun i c =>
                              match pad c (widthAt all i) with
                              | Some p => Some (" " ++ p ++ " ")%string
                              | None => None
                              end) k cells)
               = Some padded
               /\ map strlen padded = map (fun w => w + 2) widths).
  { clear Hne. induction Hfit as [| c w cells widths Hc Hfit IH]; intros k all Hall.
    - exists []. split; reflexivity.
    - cbn [mapiFrom sequence]. unfold widthAt at 1.
      pose proof (Hall 0%nat) as H0. rewrite Nat.add_0_r in H0.
      rewrite H0. cbn [nth_error].
      destruct (pad_fits c w Hc) as (p & -> & Hp).
      destruct (IH (S k) all) as (padded & -> & Hpad).
      { intros i. pose proof (Hall (S i)) as Hi. cbn [nth_error] in Hi.
        rewrite <- Hi. f_equal. lia. }
      eexists. split; [reflexivity |]. cbn [map]. rewrite Hpad. f_equal.
      rewrite !strlen_append, Hp. unfold strlen. cbn [String.length]. lia. }
  destruct (G 0%nat widths ltac:(reflexivity)) as (padded & -> & Hpad).
  eexists. split; [reflexivity |].
  apply (framed_width "|" padded widths Hpad).
  intros ->. destruct widths; [| discriminate].
  inversion Hfit; subst. congruence.
Qed.

Lemma ruleLine_width (widths : list Z) :
  Forall (fun w => 0 <= w) widths -> widths <> [] ->
  exists s, ruleLine widths = Some s /\ strlen s = rowWidth widths.
Proof.
  intros Hpos Hne. unfold ruleLine.
  assert (G : exists parts,
             sequence (map (fun w => repeatString "-" (Num (w + 2))) widths)
             = Some parts
             /\ map strlen parts = map (fun w => w + 2) widths).
  { clear Hne. induction Hpos as [| w widths Hw Hpos IH].
    - exists []. split; reflexivity.
    - cbn [map sequence].
      destruct (repeatString_char "-" (w + 2) ltac:(lia)) as (s & -> & Hs).
      destruct IH as (parts & -> & Hparts).
      eexists. split; [reflexivity |]. cbn [map]. now rewrite Hs, Hparts. }
  destruct G as (parts & -> & Hparts).
  eexists. split; [reflexivity |].
  apply (framed_width "+" parts widths Hparts).
  intros ->. destruct widths; [congruence | discriminate].
Qed.

Lemma percent_of_count (d1 d2 : list Z) :
  percent d1 d2 = percentOfCount (winCount d1 d2).
Proof. reflexivity. Qed.

Lemma winCount_six_faces (d1 d2 : list Z) :
  List.length d1 = 6%nat -> List.length d2 = 6%nat ->
  0 <= winCount d1 d2 <= 36.
Proof.
  intros H1 H2. rewrite winCount_wins.
  pose proof (wins_losses_ties d1 d2) as (E & Hw & Hl & Ht).
  rewrite H1, H2 in E. lia.
Qed.

Lemma cells_checked : forallb cellChecked (range 37) = true.
Proof. vm_compute. reflexivity. Qed.

(** X14: in the table every percentage is the exact ratio rounded to one
    decimal: for two dice of six faces the text of the cell is the
    number of tenths nearest to [100 * winCount / 36], which is never
    more than a twentieth away, although the script computes it in
    binary floating point. *)
Theorem table_cell_rounded (d1 d2 : list Z) :
  List.length d1 = 6%nat -> List.length d2 = 6%nat ->
  let n := nearestTenths (winCount d1 d2) in
  toFixed1 (percent d1 d2) = Some (tenthsText n)
  /\ 0 <= n <= 1000
  /\ Z.abs (36 * n - 1000 * winCount d1 d2) < 18.
Proof.
  intros H1 H2 n.
  pose proof (winCount_six_faces d1 d2 H1 H2) as Hk.
  split; [| split].
  - rewrite percent_of_count.
    pose proof cells_checked as Hc. rewrite forallb_forall in Hc.
    specialize (Hc (winCount d1 d2)). unfold cellChecked in Hc.
    destruct (toFixed1 (percentOfCount (winCount d1 d2))) as [text |].
    + f_equal. apply String.eqb_eq. apply Hc. apply in_range. lia.
    + discriminate Hc. apply in_range. lia.
  - unfold n, nearestTenths.
    split; [apply Z.div_pos; lia |].
    assert ((2000 * winCount d1 d2 + 36) / 72 < 1001)
      by (apply Z.div_lt_upper_bound; lia).
    lia.
  - unfold n, nearestTenths.
    pose proof (Z.div_mod (2000 * winCount d1 d2 + 36) 72 ltac:(lia)) as Hd.
    pose proof (Z.mod_pos_bound (2000 * winCount d1 d2 + 36) 72 ltac:(lia)) as Hm.
    (* 2000 k + 36 = 72 n + m with 0 < m < 72: 72 never divides it *)
    assert (Hne : (2000 * winCount d1 d2 + 36) mod 72 <> 0).
    { intros E0.
      assert (E8 : (2000 * winCount d1 d2 + 36) mod 8 = 0).
      { rewrite <- (Z.mod_mod_divide _ 72 8) by (exists 9; reflexivity).
        rewrite E0. reflexivity. }
      replace (2000 * winCount d1 d2 + 36)
        with (4 + (250 * winCount d1 d2 + 4) * 8) in E8 by lia.
      rewrite Z.mod_add in E8 by lia. discriminate. }
    lia.
Qed.

Lemma table_cell_rounded_witness :
  toFixed1 (percent [2; 2; 4; 4; 9; 9] [1; 1; 6; 6; 8; 8])
  = Some (tenthsText (nearestTenths (winCount [2; 2; 4; 4; 9; 9] [1; 1; 6; 6; 8; 8])))
  /\ 0 <= nearestTenths (winCount [2; 2; 4; 4; 9; 9] [1; 1; 6; 6; 8; 8]) <= 1000
  /\ Z.abs (36 * nearestTenths (winCount [2; 2; 4; 4; 9; 9] [1; 1; 6; 6; 8; 8])
            - 1000 * winCount [2; 2; 4; 4; 9; 9] [1; 1; 6; 6; 8; 8]) < 18.
Proof.
  apply (table_cell_rounded [2; 2; 4; 4; 9; 9] [1; 1; 6; 6; 8; 8]); reflexivity.
Defined.

Example tenthsText_classic :
  tenthsText (nearestTenths 20) = "55.6"%string
  /\ tenthsText (nearestTenths 16) = "44.4"%string.
Proof. split; reflexivity. Qed.

Lemma percent_text_defined (d1 d2 : list Z) :
  List.length d1 = 6%nat -> List.length d2 = 6%nat ->
  exists text, toFixed1 (percent d1 d2) = Some text.
Proof.
  intros H1 H2. rewrite percent_of_count.
  pose proof (winCount_six_faces d1 d2 H1 H2) as Hk.
  pose proof cells_checked as Hc. rewrite forallb_forall in Hc.
  specialize (Hc (winCount d1 d2) ltac:(apply in_range; lia)).
  unfold cellChecked in Hc.
  destruct (toFixed1 (percentOfCount (winCount d1 d2))) as [text |];
    [now exists text | discriminate].
Qed.

Lemma sequence_mapiFrom {A B : Type} (f : nat -> A -> option B)
      (P : B -> Prop) (k : nat) (l : list A) :
  (forall i a, In a l -> exists y, f i a = Some y /\ P y) ->
  exists ys,
    sequence (mapiFrom f k l) = Some ys
    /\ List.length ys = List.length l /\ Forall P ys.
Proof.
  revert k. induction l as [| a l IH]; intros k H.
  - exists []. repeat split. constructor.
  - cbn [mapiFrom sequence].
    destruct (H k a (or_introl eq_refl)) as (y & -> & Hy).
    destruct (IH (S k)) as (ys & -> & Hlen & Hall).
    { intros i b Hb. apply H. now right. }
    exists (y :: ys). split; [reflexivity |].
    split; [cbn; now rewrite Hlen | now constructor].
Qed.

Lemma sequence_map {A B : Type} (f : A -> option B) (P : B -> Prop)
      (l : list A) :
  (forall a, In a l -> exists y, f a = Some y /\ P y) ->
  exists ys,
    sequence (map f l) = Some ys
    /\ List.length ys = List.length l /\ Forall P ys.
Proof.
  induction l as [| a l IH]; intros H.
  - exists []. repeat split. constructor.
  - cbn [map sequence].
    destruct (H a (or_introl eq_refl)) as (y & -> & Hy).
    destruct IH as (ys & -> & Hlen & Hall).
    { intros b Hb. apply H. now right. }
    exists (y :: ys). split; [reflexivity |].
    split; [cbn; now rewrite Hlen | now constructor].
Qed.

(** For dice of six faces every cell is defined, and every row has a
    label and one cell for each die. *)
Lemma tableRows_defined (dice : list (list Z)) :
  Forall (fun d => List.length d = 6%nat) dice ->
  exists rows,
    tableRows dice = Some rows
    /\ List.length rows = List.length dice
    /\ Forall (fun r => List.length r = S (List.length dice)) rows.
Proof.
  intros Hd. rewrite Forall_forall in Hd. unfold tableRows, mapi.
  apply sequence_mapiFrom. intros i d1 H1.
  destruct (sequence_mapiFrom (fun j d2 => tableCell i j d1 d2)
                              (fun _ => True) 0 dice)
    as (cells & -> & Hlen & _).
  - intros j d2 H2. unfold tableCell. destruct (Nat.eqb i j).
    + eexists. split; [reflexivity | exact I].
    + destruct (percent_text_defined d1 d2 (Hd d1 H1) (Hd d2 H2)) as (text & ->).
      eexists. split; [reflexivity | exact I].
  - eexists. split; [reflexivity |]. cbn [List.length]. now rewrite Hlen.
Qed.

Lemma fold_left_max_ge (lens : list Z) (start : Z) :
  start <= fold_left Z.max lens start
  /\ forall x, In x lens -> x <= fold_left Z.max lens start.
Proof.
  revert start. induction lens as [| y lens IH]; intros start; cbn [fold_left].
  - split; [lia | intros x []].
  - destruct (IH (Z.max start y)) as (H1 & H2). split; [lia |].
    intros x [<- | Hx]; [lia | now apply H2].
Qed.

Lemma skipn_nth_error_cons {A : Type} (k : nat) (r : list A) (c : A) :
  nth_error r k = Some c -> skipn k r = c :: skipn (S k) r.
Proof.
  revert r. induction k as [| k IH]; intros [| a r]; cbn [nth_error];
    try discriminate.
  - intros H. injection H as ->. reflexivity.
  - intros H. cbn [skipn]. now apply IH.
Qed.

(** The widths exist when every row has a cell for every column, and
    then every cell and every header fits the width of its column. *)
Lemma colWidths_fit (header : list string) (rows : list (list string)) :
  Forall (fun r => List.length r = List.length header) rows ->
  exists widths,
    colWidths header rows = Some widths
    /\ Forall2 (fun c w => strlen c <= w) header widths
    /\ Forall (fun r => Forall2 (fun c w => strlen c <= w) r widths) rows.
Proof.
  intros Hrows. rewrite Forall_forall in Hrows. unfold colWidths, mapi.
  enough (G : forall hs k,
             (forall r, In r rows -> List.length r = (k + List.length hs)%nat) ->
             exists widths,
               sequence
                 (mapiFrom
                    (fun i h =>
                       match sequence
                               (map (fun r => option_map strlen (nth_error r i))
                                    rows) with
                       | Some lens => Some (fold_left Z.max lens (strlen h))
                       | None => None
                       end) k hs)
               = Some widths
               /\ Forall2 (fun c w => strlen c <= w) hs widths
               /\ forall r, In r rows ->
                    Forall2 (fun c w => strlen c <= w) (skipn k r) widths).
  { destruct (G header 0%nat Hrows) as (widths & E & Hh & Hr).
    exists widths. split; [exact E |]. split; [exact Hh |].
    apply Forall_forall. exact Hr. }
  induction hs as [| h hs IH]; intros k Hlen.
  - exists []. split; [reflexivity |]. split; [constructor |].
    intros r Hr. rewrite skipn_all2; [constructor |].
    rewrite (Hlen r Hr). cbn. lia.
  - cbn [mapiFrom sequence].
    destruct (sequence_map (fun r => option_map strlen (nth_error r k))
                           (fun _ => True) rows) as (lens & E & _ & _).
    { intros r Hr. destruct (nth_error r k) as [c |] eqn:Ec.
      - eexists. split; [reflexivity | exact I].
      - apply nth_error_None in Ec. rewrite (Hlen r Hr) in Ec. cbn in Ec. lia. }
    rewrite E.
    destruct (IH (S k)) as (widths & -> & Hh & Hr).
    { intros r Hr. rewrite (Hlen r Hr). cbn [List.length]. lia. }
    destruct (fold_left_max_ge lens (strlen h)) as (Hstart & Helem).
    eexists. split; [reflexivity |]. split; [now constructor |].
    intros r Hin. destruct (nth_error r k) as [c |] eqn:Ec.
    + rewrite (skipn_nth_error_cons k r c Ec). constructor; [| now apply Hr].
      apply Helem.
      (* the length of the cell is among the lengths of the column *)
      clear - E Hin Ec. revert lens E.
      induction rows as [| r0 rows IHr]; intros lens E; [destruct Hin |].
      cbn [map sequence] in E.
      destruct (nth_error r0 k) as [c0 |] eqn:E0; cbn [option_map] in E;
        [| discriminate].
      destruct (sequence (map (fun r => option_map strlen (nth_error r k)) rows))
        as [lens' |]; [| discriminate].
      injection E as <-. destruct Hin as [-> | Hin].
      * left. congruence.
      * right. now apply IHr.
    + apply nth_error_None in Ec. rewrite (Hlen r Hin) in Ec. cbn in Ec. lia.
Qed.

(** X15: for dice of six faces [showProbabilities] never raises ([pad]
    never asks for a negative number of spaces) and the table is a
    rectangle: a rule, the header, a rule, one row for each die and a
    rule, all of the same length. *)
Theorem showProbabilities_rectangular (dice : list (list Z)) :
  Forall (fun d => List.length d = 6%nat) dice ->
  exists lines width,
    showProbabilities dice = Some lines
    /\ List.length lines = (List.length dice + 4)%nat
    /\ Forall (fun l => strlen l = width) lines.
Proof.
  intros Hd. unfold showProbabilities.
  destruct (tableRows_defined dice Hd) as (rows & -> & Hn & Hrow).
  set (header := tableHeader (List.length dice)).
  assert (Hh : List.length header = S (List.length dice)).
  { unfold header, tableHeader. cbn [List.length].
    now rewrite length_map, length_seq. }
  destruct (colWidths_fit header rows) as (widths & -> & Hfh & Hfr).
  { eapply Forall_impl; [| exact Hrow]. cbv beta. intros r Hr.
    rewrite Hh. exact Hr. }
  assert (Hne : widths <> []).
  { intros ->. unfold header, tableHeader in Hfh. inversion Hfh. }
  assert (Hpos : Forall (fun w => 0 <= w) widths).
  { clear - Hfh. induction Hfh as [| c w cs ws Hc _ IH]; constructor;
      [pose proof (strlen_nonneg c); lia | exact IH]. }
  destruct (ruleLine_width widths Hpos Hne) as (line & -> & Hline).
  destruct (renderCells_fits header widths Hfh) as (head & -> & Hhead).
  { intros E. rewrite E in Hh. discriminate. }
  destruct (sequence_map (fun r => renderCells r widths)
                         (fun s => strlen s = rowWidth widths) rows)
    as (body & -> & Hlen & Hbody).
  { intros r Hr. rewrite Forall_forall in Hfr, Hrow.
    apply renderCells_fits; [now apply Hfr |].
    intros E. specialize (Hrow r Hr). rewrite E in Hrow. discriminate. }
  exists (line :: head :: line :: body ++ [line]), (rowWidth widths).
  split; [reflexivity |]. split.
  - cbn [List.length]. rewrite length_app, Hlen, Hn. cbn [List.length]. lia.
  - repeat (constructor; [assumption |]).
    apply Forall_app. split; [exact Hbody |]. now constructor.
Qed.

Lemma showProbabilities_rectangular_witness :
  exists lines width,
    showProbabilities classicDice = Some lines
    /\ List.length lines = (List.length classicDice + 4)%nat
    /\ Forall (fun l => strlen l = width) lines.
Proof. apply showProbabilities_rectangular. repeat constructor. Defined.

(** ** The whole script *)

Example script_game :
  match script classicArgs gameWorld with
  | Some (code, w') =>
      code = 0 /\ stdin w' = ["2"%string] /\ entropy w' = []
      /\ List.length (digestsIn (stdout w')) = 5%nat
      /\ map render (firstn 4 (stdout w'))
         = ["Dice configurations:"; "Die 0: 2, 2, 4, 4, 9, 9";
            "Die 1: 1, 1, 6, 6, 8, 8"; "Die 2: 3, 3, 5, 5, 7, 7"]%string
      /\ map render (skipn (List.length (stdout w') - 4) (stdout w'))
         = ["Computer wins!"; menuText; "Choose an option: "; "Game ended."]%string
  | None => False
  end.
Proof. vm_compute. repeat split. Qed.

Example script_two_dice :
  script ["1,2,3,4,5,6"; "1,2,3,4,5,6"]%string gameWorld
  = Some (1, mkWorld (entropy gameWorld) (stdin gameWorld)
               [Line "Error: You must provide at least 3 dice.";
                Line "Example: node dice_game.js 2,2,4,4,9,9 6,8,1,1,8,6 7,5,3,7,5,3"]).
Proof. reflexivity. Qed.

Section Growing.

Variable P : event -> Prop.
Variable lowest : Z.

Hypothesis P_other :
  forall e, match e with Result _ _ => True | _ => P e end.
Hypothesis P_result :
  forall max v, lowest <= max -> 0 <= v < max -> P (Result max (Num v)).
Hypothesis lowest_2 : lowest <= 2.

Lemma grows_refl (w : World) : grows P w w.
Proof.
  split; [now exists [] |]. exists []. split; [now rewrite app_nil_r | constructor].
Qed.

Lemma grows_trans (w1 w2 w3 : World) :
  grows P w1 w2 -> grows P w2 w3 -> grows P w1 w3.
Proof.
  intros ((u1 & E1) & n1 & O1 & F1) ((u2 & E2) & n2 & O2 & F2). split.
  - exists (u1 ++ u2). now rewrite E1, E2, app_assoc.
  - exists (n1 ++ n2). split; [now rewrite O2, O1, app_assoc |].
    now apply Forall_app.
Qed.

Lemma growing_ret {A : Type} (a : A) : growing P (ret a).
Proof. intros w b w' H. injection H as <- <-. apply grows_refl. Qed.

Lemma growing_none {A : Type} : growing P (fun _ : World => @None (A * World)).
Proof. intros w a w' H. discriminate. Qed.

Lemma growing_bind {A B : Type} (m : IO A) (k : A -> IO B) :
  growing P m -> (forall a, growing P (k a)) -> growing P (bind m k).
Proof.
  intros Hm Hk w b w'. unfold bind.
  destruct (m w) as [[a w1] |] eqn:E; [| discriminate].
  intros H. eapply grows_trans; [eapply Hm | eapply Hk]; eassumption.
Qed.

Lemma growing_logAll (es : list event) : Forall P es -> growing P (logAll es).
Proof.
  intros Hes w a w' H. injection H as <- <-. split; [now exists [] |].
  exists es. split; [reflexivity | exact Hes].
Qed.

Lemma growing_log (e : event) : P e -> growing P (log e).
Proof.
  intros He w a w' H. injection H as <- <-. split; [now exists [] |].
  exists [e]. split; [reflexivity | now constructor].
Qed.

Lemma growing_line (text : string) : growing P (log (Line text)).
Proof. apply growing_log. exact (P_other (Line text)). Qed.

Lemma growing_ask (question : event) : P question -> growing P (ask question).
Proof.
  intros Hq w line w'. unfold ask.
  destruct (stdin w) as [| l rest] eqn:E; [discriminate |].
  intros H. injection H as <- <-. split.
  - exists [l]. cbn [stdin]. now rewrite E.
  - exists [question]. split; [reflexivity | now constructor].
Qed.

Lemma growing_at {A : Type} (m : nat -> IO A) (f : World -> nat) :
  (forall n, growing P (m n)) -> growing P (fun w => m (f w) w).
Proof. intros H w a w'. apply H. Qed.

Lemma transcript_P (max : Z) (label : string) (x : exchange) :
  (1 <= max -> lowest <= max) -> completes max x ->
  Forall P (transcript max label x).
Proof.
  intros Hlow (_ & _ & Hs & _ & _ & Hu). unfold transcript.
  constructor; [exact (P_other (Committed _ _)) |].
  apply Forall_app. split.
  - unfold refusals. induction (xRefused x) as [| l r IH]; [constructor |].
    cbn [flat_map app].
    constructor; [exact (P_other (Question _)) |].
    constructor; [exact (P_other (InvalidInput _)) | exact IH].
  - constructor; [exact (P_other (Question _)) |].
    constructor; [exact (P_other (SecretNumber _)) |].
    constructor; [exact (P_other (SecretKey _)) |].
    constructor; [exact (P_other (YouEntered _)) |].
    constructor; [| constructor].
    apply P_result; [apply Hlow; lia |]. apply Z.mod_pos_bound. lia.
Qed.

Lemma growing_fairRandom (max : Z) (label : string) :
  (1 <= max -> lowest <= max) -> growing P (fairRandom max label).
Proof.
  intros Hlow w r w' H. apply fairRandom_runs in H.
  destruct H as (x & (Hc & _ & Hi & Ho) & _). split.
  - exists (xRefused x ++ [xLine x]). now rewrite Hi, <- app_assoc.
  - exists (transcript max label x). split; [exact Ho |].
    now apply transcript_P.
Qed.

Lemma growing_reroll (fuel : nat) (max : Z) (user c : number) :
  (1 <= max -> lowest <= max) -> growing P (reroll fuel max user c).
Proof.
  intros Hlow. revert c. induction fuel as [| fuel IH]; intros c; cbn [reroll];
    destruct (strictEq c user); try apply growing_ret; try apply growing_none.
  apply growing_bind; [now apply growing_fairRandom | exact IH].
Qed.

Lemma growing_chooseComputerDie (max : Z) (user : number) :
  (1 <= max -> lowest <= max) -> growing P (chooseComputerDie max user).
Proof.
  intros Hlow. unfold chooseComputerDie.
  apply growing_bind; [now apply growing_fairRandom |].
  intros c. apply (growing_at (fun n => reroll n max user c)).
  intros n. now apply growing_reroll.
Qed.

Lemma Forall_lines (texts : list string) : Forall P (map Line texts).
Proof.
  induction texts as [| t texts IH]; constructor;
    [exact (P_other (Line t)) | exact IH].
Qed.

Lemma Forall_listing (i : Z) (dice : list (list Z)) : Forall P (listing i dice).
Proof.
  revert i. induction dice as [| d dice IH]; intros i; cbn [listing];
    constructor; [exact (P_other (Line _)) | apply IH].
Qed.

Lemma growing_play (dice : list (list Z)) :
  (1 <= Z.of_nat (List.length dice) -> lowest <= Z.of_nat (List.length dice)) ->
  growing P (play dice).
Proof.
  intros Hlow. unfold play.
  apply growing_bind.
  { apply growing_logAll. constructor; [exact (P_other (Line _)) |].
    apply Forall_app. split; [apply Forall_listing |].
    constructor; [exact (P_other (Line _)) | constructor]. }
  intros _. apply growing_bind; [apply growing_ask; exact (P_other (Line _)) |].
  intros userDieInput. cbv zeta.
  destruct (isNaN _ || lt _ _ || lt _ _); [apply growing_line |].
  destruct (strictEq _ _); [apply growing_line |].
  apply growing_bind; [now apply growing_chooseComputerDie |].
  intros compDieIndex.
  apply growing_bind; [apply growing_log; exact (P_other (ComputerChose _)) |].
  intros _.
  apply growing_bind; [apply growing_fairRandom; unfold DICE_FACES; lia |].
  intros userRoll.
  apply growing_bind; [apply growing_fairRandom; unfold DICE_FACES; lia |].
  intros compRoll.
  apply growing_bind; [apply growing_line |]. intros _.
  apply growing_bind; [apply growing_line |]. intros _.
  destruct (match index dice _ with Some d => index d userRoll | None => None end)
    as [a |]; [| apply growing_line].
  destruct (match index dice compDieIndex with
            | Some d => index d compRoll | None => None end)
    as [b |]; [| apply growing_line].
  destruct (a >? b); [apply growing_line |].
  destruct (a <? b); apply growing_line.
Qed.

Lemma growing_showProbabilitiesIO (dice : list (list Z)) :
  growing P (showProbabilitiesIO dice).
Proof.
  unfold showProbabilitiesIO. intros w a w'.
  destruct (showProbabilities dice) as [lines |]; [| discriminate].
  apply growing_logAll, Forall_lines.
Qed.

Lemma growing_menu (fuel : nat) (dice : list (list Z)) :
  (1 <= Z.of_nat (List.length dice) -> lowest <= Z.of_nat (List.length dice)) ->
  growing P (menu fuel dice).
Proof.
  intros Hlow. induction fuel as [| fuel IH]; cbn [menu]; [apply growing_none |].
  apply growing_bind; [apply growing_line |]. intros _.
  apply growing_bind; [apply growing_ask; exact (P_other (Line _)) |].
  intros choice.
  destruct (String.eqb (trim choice) "0"); [apply growing_ret |].
  destruct (String.eqb (trim choice) "1").
  { apply growing_bind; [apply growing_showProbabilitiesIO | intros _; exact IH]. }
  destruct (String.eqb (trim choice) "2").
  { apply growing_bind; [now apply growing_play | intros _; exact IH]. }
  apply growing_bind; [apply growing_line | intros _; exact IH].
Qed.

Lemma growing_main (dice : list (list Z)) :
  (1 <= Z.of_nat (List.length dice) -> lowest <= Z.of_nat (List.length dice)) ->
  growing P (main dice).
Proof.
  intros Hlow. unfold main.
  apply growing_bind; [apply growing_line |]. intros _.
  apply growing_bind.
  { apply growing_logAll. clear Hlow. unfold mapi. generalize 0%nat.
    induction dice as [| d dice IH]; intros i; cbn [mapiFrom]; constructor;
      [exact (P_other (Line _)) | apply IH]. }
  intros _.
  apply growing_bind; [apply growing_fairRandom; lia |]. intros firstMove.
  cbv zeta.
  apply growing_bind; [apply growing_line |]. intros _.
  apply growing_bind; [| intros _; apply growing_line].
  apply (growing_at (fun n => menu n dice)). intros n. now apply growing_menu.
Qed.

End Growing.

Lemma exchangeInOrder_other (e : event) :
  match e with Result _ _ => True | _ => exchangeInOrder e end.
Proof. destruct e; exact I. Qed.

Lemma exchangeInOrder_result (max v : Z) :
  2 <= max -> 0 <= v < max -> exchangeInOrder (Result max (Num v)).
Proof. intros Hm Hv. split; [exact Hm |]. now exists v. Qed.

Lemma digestsIn_lines (texts : list string) : digestsIn (map Line texts) = [].
Proof. induction texts as [| t texts IH]; [reflexivity | exact IH]. Qed.

(** X16: in a whole run of the script every exchange has a bound of at
    least 2 and an integer result below its bound: [fairRandom] is only
    called with 2, with the number of dice, which is at least 3, and
    with 6.  A run that leaves at start-up has exit code 1 and has drawn
    no random byte, read no line and disclosed no digest; the exit code
    is 0 otherwise. *)
Theorem script_exchanges_in_order (args : list string) (w : World) (code : Z)
        (w' : World) :
  script args w = Some (code, w') ->
  (code = 0 \/ code = 1)
  /\ (exists used new,
        stdin w = used ++ stdin w'
        /\ stdout w' = stdout w ++ new
        /\ Forall exchangeInOrder new)
  /\ (code = 1 ->
      entropy w' = entropy w /\ stdin w' = stdin w
      /\ digestsIn (stdout w') = digestsIn (stdout w)).
Proof.
  unfold script.
  destruct (start_spec args) as [(Hn & _ & E) | (_ & messages & E)]; rewrite E.
  - destruct (main _ w) as [[[] w1] |] eqn:Hm; [| discriminate].
    intros H. injection H as <- <-.
    split; [now left |]. split; [| discriminate].
    assert (Hlow : 1 <= Z.of_nat (List.length
                                    (map (fun arg => integers (parseFaces arg)) args)) ->
                   2 <= Z.of_nat (List.length
                                    (map (fun arg => integers (parseFaces arg)) args)))
      by (rewrite length_map; lia).
    destruct (growing_main exchangeInOrder 2 exchangeInOrder_other
                exchangeInOrder_result ltac:(lia) _ Hlow w tt w1 Hm)
      as ((used & Hu) & new & Ho & Hf).
    now exists used, new.
  - intros H. injection H as <- <-. cbn [entropy stdin stdout].
    split; [now right |]. split.
    + exists [], (map Line messages). split; [reflexivity |].
      split; [reflexivity |].
      clear. induction messages; constructor; [exact I | assumption].
    + intros _. split; [reflexivity |]. split; [reflexivity |].
      now rewrite digestsIn_app, digestsIn_lines, app_nil_r.
Qed.

Lemma script_exchanges_in_order_witness :
  exists code w',
    script classicArgs gameWorld = Some (code, w')
    /\ (code = 0 \/ code = 1)
    /\ (exists used new,
          stdin gameWorld = used ++ stdin w'
          /\ stdout w' = stdout gameWorld ++ new
          /\ Forall exchangeInOrder new)
    /\ (code = 1 ->
        entropy w' = entropy gameWorld /\ stdin w' = stdin gameWorld
        /\ digestsIn (stdout w') = digestsIn (stdout gameWorld)).
Proof.
  destruct (script classicArgs gameWorld) as [[code w'] |] eqn:E;
    [| vm_compute in E; discriminate].
  exists code, w'. split; [reflexivity |].
  exact (script_exchanges_in_order classicArgs gameWorld code w' E).
Defined.

Lemma anything_other (e : event) :
  match e with Result _ _ => True | _ => (fun _ : event => True) e end.
Proof. destruct e; exact I. Qed.

Lemma reads_front {A : Type} (m : IO A) (w : World) (a : A) (w' : World) :
  growing (fun _ => True) m -> m w = Some (a, w') ->
  exists used, stdin w = used ++ stdin w'.
Proof. intros Hm H. exact (proj1 (Hm w a w' H)). Qed.

(** The loop of the menu is left only by a line that reads 0. *)
Lemma menu_left_by_zero (fuel : nat) (dice : list (list Z)) (w w' : World) :
  menu fuel dice w = Some (tt, w') ->
  exists used line,
    stdin w = used ++ line :: stdin w' /\ trim line = "0"%string
    /\ stdout w' <> [].
Proof.
  assert (Hplay : growing (fun _ => True) (play dice)).
  { apply (growing_play _ 1 anything_other); [intros; exact I | lia | lia]. }
  assert (Hshow : growing (fun _ => True) (showProbabilitiesIO dice)).
  { apply (growing_showProbabilitiesIO _ anything_other). }
  revert w. induction fuel as [| fuel IH]; intros w; cbn [menu]; [discriminate |].
  unfold bind at 1. rewrite log_eq. unfold bind at 1, ask. cbn [stdin].
  destruct (stdin w) as [| choice rest] eqn:Ew; [discriminate |].
  cbn [entropy stdin stdout].
  destruct (String.eqb_spec (trim choice) "0") as [E0 | _].
  { intros H. injection H as <-. cbn [stdin stdout].
    exists [], choice. split; [reflexivity |]. split; [exact E0 |].
    destruct (stdout w); discriminate. }
  assert (Step : forall (m : IO unit) w1,
             growing (fun _ => True) m ->
             stdin w1 = rest ->
             bind m (fun _ => menu fuel dice) w1 = Some (tt, w') ->
             exists used line,
               choice :: rest = used ++ line :: stdin w'
               /\ trim line = "0"%string /\ stdout w' <> []).
  { intros m w1 Hm Hrest. unfold bind.
    destruct (m w1) as [[[] w2] |] eqn:Em; [| discriminate].
    intros H. destruct (IH _ H) as (used & line & Hu & Hl & Ho).
    destruct (reads_front m w1 tt w2 Hm Em) as (usedm & Hum).
    exists (choice :: usedm ++ used), line.
    split; [| split; assumption].
    cbn [app]. f_equal. rewrite <- Hrest, Hum, Hu, <- app_assoc. reflexivity. }
  destruct (String.eqb (trim choice) "1"); [now apply Step |].
  destruct (String.eqb (trim choice) "2"); [now apply Step |].
  apply Step; [| reflexivity].
  apply (growing_line _ anything_other).
Qed.

(** X17: [main] returns only after a line that reads 0 was typed at the
    menu; the lines after it are left unread, and the last thing written
    is the line that tells the game has ended. *)
Theorem main_left_by_zero (dice : list (list Z)) (w w' : World) :
  main dice w = Some (tt, w') ->
  (exists used line,
     stdin w = used ++ line :: stdin w' /\ trim line = "0"%string)
  /\ exists before, stdout w' = before ++ [Line "Game ended."].
Proof.
  unfold main. unfold bind at 1. rewrite log_eq.
  unfold bind at 1, logAll at 1. cbn [entropy stdin stdout].
  unfold bind at 1.
  match goal with
  | |- context [fairRandom 2 "First move" ?w0] =>
      destruct (fairRandom 2 "First move" w0) as [[firstMove w1] |] eqn:Hf;
        [| discriminate]
  end.
  cbv zeta. unfold bind at 1. rewrite log_eq. unfold bind at 1.
  cbn [entropy stdin stdout].
  match goal with
  | |- context [menu ?n dice ?w2] =>
      destruct (menu n dice w2) as [[[] w3] |] eqn:Hm; [| discriminate]
  end.
  rewrite log_eq. intros H. injection H as <-. cbn [stdin stdout].
  split; [| now eexists].
  destruct (menu_left_by_zero _ _ _ _ Hm) as (used & line & Hu & Hl & _).
  cbn [stdin] in Hu.
  destruct (reads_front _ _ _ _
              (growing_fairRandom (fun _ => True) 1 anything_other
                 ltac:(intros; exact I) 2 "First move" ltac:(lia)) Hf)
    as (used0 & Hu0).
  cbn [stdin] in Hu0.
  exists (used0 ++ used), line. split; [| exact Hl].
  now rewrite Hu0, Hu, <- app_assoc.
Qed.

Lemma main_left_by_zero_witness :
  exists w',
    main classicDice gameWorld = Some (tt, w')
    /\ (exists used line,
          stdin gameWorld = used ++ line :: stdin w' /\ trim line = "0"%string)
    /\ exists before, stdout w' = before ++ [Line "Game ended."].
Proof.
  destruct (main classicDice gameWorld) as [[[] w'] |] eqn:E;
    [| vm_compute in E; discriminate].
  exists w'. split; [reflexivity |].
  exact (main_left_by_zero classicDice gameWorld w' E).
Defined.
